(** * LibrarySystem: the hash index, the title tree and the manager

    A shallow embedding of [library_system.cpp] and the properties of its
    catalog.  The program keeps every [Book] on the free store; the manager's
    vector [books] owns the objects, the hash table [idIndex] and the binary
    search tree [titleIndex] hold plain [Book*] addresses of the same objects.

    Conventions of the embedding:
    - a C++ [int] is a [Z] (the only arithmetic on it is [%], which cannot
      overflow);
    - a [std::string] is a [string]; [<], [>] and [==] on it are the
      lexicographic comparison of unsigned bytes, which is [String.compare];
    - a [Book*] is the position of the object in the free store, and a
      possibly null [Book*] result is an [option];
    - an access outside the bucket array or through an address that holds no
      object has no defined behaviour in C++; here it stops the run with a
      [fault];
    - [std::cout] is the text written so far. *)

From Stdlib Require Import ZArith String Ascii Lia DecimalString.
From stdpp Require Import base list strings sorting.

Open Scope Z_scope.

(** ** Faults and the error monad *)

Abbreviation ptr := nat.

Inductive fault : Type :=
  | OutOfBounds (index : Z)
  | DanglingPointer (p : ptr).

Inductive result (A : Type) : Type :=
  | Ok (a : A)
  | Fault (f : fault).

Arguments Ok {A} a.
Arguments Fault {A} f.

Definition bind {A B : Type} (m : result A) (k : A -> result B) : result B :=
  match m with
  | Ok a => k a
  | Fault f => Fault f
  end.

Notation "'let*' x ':=' m 'in' k" := (bind m (fun x => k))
  (at level 10, x name, m at level 100, k at level 200).

(** ** Book *)

Record Book : Type := mkBook {
  id : Z;
  title : string;
  author : string;
  isAvailable : bool
}.

(** [Book::Book(int, string, string)]: the availability flag starts true. *)
Definition Book_new (_id : Z) (_title _author : string) : Book :=
  mkBook _id _title _author true.

(** The free store: the [Book] objects in allocation order.  [new Book]
    returns the next position; nothing is released while the manager lives. *)
Abbreviation store := (list Book).

Definition deref (h : store) (p : ptr) : result Book :=
  match h !! p with
  | Some b => Ok b
  | None => Fault (DanglingPointer p)
  end.

(** *** Text written by the stream inserters *)

Definition endl : string := String "010"%char EmptyString.

(** [cout << n] for an [int], in the default decimal base. *)
Definition show_int (n : Z) : string := NilZero.string_of_int (Z.to_int n).

Fixpoint spaces (n : nat) : string :=
  match n with
  | O => EmptyString
  | S k => String " "%char (spaces k)
  end.

(** [left << setw(w) << s]: padded with blanks on the right up to [w]
    characters, never cut. *)
Definition left_setw (w : nat) (s : string) : string :=
  s +:+ spaces (w - String.length s).

(** [Book::printDetails]: the text of one catalog line. *)
Definition printDetails (b : Book) : string :=
  "[" +:+ show_int (id b) +:+ "] "
    +:+ left_setw 25 (title b)
    +:+ " | " +:+ left_setw 15 (author b)
    +:+ " | " +:+ (if isAvailable b then "Available" else "Checked Out")
    +:+ endl.

Arguments show_int : simpl never.
Arguments left_setw : simpl never.
Arguments printDetails : simpl never.

(** ** HashTable *)

Module HashTable.

Definition TABLE_SIZE : Z := 101.

(** [list<Book*> table[TABLE_SIZE]] *)
Abbreviation t := (list (list ptr)).

Definition empty : t := replicate (Z.to_nat TABLE_SIZE) [].

(** C++ [%] truncates towards zero: the result has the sign of [key]. *)
Definition hashFunction (key : Z) : Z := Z.rem key TABLE_SIZE.

(** [table[index]]: defined for [0 <= index < TABLE_SIZE] only. *)
Definition at_index (table : t) (index : Z) : result (list ptr) :=
  if bool_decide (0 <= index < TABLE_SIZE) then
    match table !! Z.to_nat index with
    | Some chain => Ok chain
    | None => Fault (OutOfBounds index)
    end
  else Fault (OutOfBounds index).

Definition insert (h : store) (table : t) (book : ptr) : result t :=
  let* b := deref h book in
  let index := hashFunction (id b) in
  let* chain := at_index table index in
  Ok (<[Z.to_nat index := chain ++ [book]]> table).

(** The range-for over one chain. *)
Fixpoint scan (h : store) (chain : list ptr) (key : Z) : result (option ptr) :=
  match chain with
  | [] => Ok None
  | book :: rest =>
      let* b := deref h book in
      if id b =? key then Ok (Some book) else scan h rest key
  end.

Definition search (h : store) (table : t) (key : Z) : result (option ptr) :=
  let index := hashFunction key in
  let* chain := at_index table index in
  scan h chain key.

End HashTable.

(** ** BST *)

Inductive BSTNode : Type :=
  | null
  | Node (book : ptr) (left right : BSTNode).

Module BST.

(** [BSTNode* root] *)
Abbreviation t := BSTNode.

Definition empty : t := null.

Fixpoint insertRecursive (h : store) (node : BSTNode) (book : ptr)
  : result BSTNode :=
  match node with
  | null => Ok (Node book null null)
  | Node nb l r =>
      let* b := deref h book in
      let* n := deref h nb in
      if String.ltb (title b) (title n) then
        let* l' := insertRecursive h l book in Ok (Node nb l' r)
      else if String.ltb (title n) (title b) then
        let* r' := insertRecursive h r book in Ok (Node nb l r')
      else Ok (Node nb l r)
  end.

Fixpoint searchRecursive (h : store) (node : BSTNode) (key : string)
  : result (option ptr) :=
  match node with
  | null => Ok None
  | Node nb l r =>
      let* n := deref h nb in
      if String.eqb (title n) key then Ok (Some nb)
      else if String.ltb key (title n) then searchRecursive h l key
      else searchRecursive h r key
  end.

(** [inorderPrint] writes one line per node; [out] is the stream. *)
Fixpoint inorderPrint (h : store) (node : BSTNode) (out : string)
  : result string :=
  match node with
  | null => Ok out
  | Node nb l r =>
      let* out1 := inorderPrint h l out in
      let* n := deref h nb in
      inorderPrint h r (out1 +:+ printDetails n)
  end.

Definition insert (h : store) (root : t) (book : ptr) : result t :=
  insertRecursive h root book.

Definition search (h : store) (root : t) (key : string) : result (option ptr) :=
  searchRecursive h root key.

Definition printAll (h : store) (root : t) (out : string) : result string :=
  match root with
  | null => Ok (out +:+ "No books in the library." +:+ endl)
  | Node _ _ _ => inorderPrint h root out
  end.

End BST.

(** ** LibraryManager *)

(** The state of the process: the free store, the text on [std::cout], and
    the three members of the one [LibraryManager] object.  The parameters
    [id], [title] and [author] of the methods are called [key], [ttl] and
    [aut] below, the former being the field names of [Book]. *)
Record State : Type := mkState {
  heap : store;
  cout : string;
  books : list ptr;
  idIndex : HashTable.t;
  titleIndex : BST.t
}.

(** [cout << text] and nothing else. *)
Definition emit (text : string) (s : State) : State :=
  mkState (heap s) (cout s +:+ text) (books s) (idIndex s) (titleIndex s).

Module LibraryManager.

(** A default-constructed manager in a process that has written nothing. *)
Definition init : State := mkState [] "" [] HashTable.empty BST.empty.

Definition addBook (key : Z) (ttl aut : string) (s : State) : result State :=
  let* found := HashTable.search (heap s) (idIndex s) key in
  match found with
  | Some _ =>
      Ok (emit ("Error: Book ID " +:+ show_int key +:+ " already exists." +:+ endl) s)
  | None =>
      let newBook : ptr := length (heap s) in
      let heap' := heap s ++ [Book_new key ttl aut] in
      let books' := books s ++ [newBook] in
      let* idIndex' := HashTable.insert heap' (idIndex s) newBook in
      let* titleIndex' := BST.insert heap' (titleIndex s) newBook in
      Ok (mkState heap' (cout s +:+ "Added: " +:+ ttl +:+ endl)
                  books' idIndex' titleIndex')
  end.

Definition searchById (key : Z) (s : State) : result State :=
  let* res := HashTable.search (heap s) (idIndex s) key in
  match res with
  | Some p =>
      let* b := deref (heap s) p in
      Ok (emit (endl +:+ "[Found by ID]" +:+ endl +:+ printDetails b) s)
  | None =>
      Ok (emit ("Book not found (ID: " +:+ show_int key +:+ ")" +:+ endl) s)
  end.

Definition searchByTitle (key : string) (s : State) : result State :=
  let* res := BST.search (heap s) (titleIndex s) key in
  match res with
  | Some p =>
      let* b := deref (heap s) p in
      Ok (emit (endl +:+ "[Found by Title]" +:+ endl +:+ printDetails b) s)
  | None =>
      Ok (emit ("Book not found (Title: " +:+ key +:+ ")" +:+ endl) s)
  end.

Definition showAllBooks (s : State) : result State :=
  let out1 := cout s +:+ endl +:+ "=== Library Catalog (Sorted by Title) ===" +:+ endl in
  let* out2 := BST.printAll (heap s) (titleIndex s) out1 in
  Ok (mkState (heap s)
              (out2 +:+ "=========================================" +:+ endl)
              (books s) (idIndex s) (titleIndex s)).

Definition loadSampleData (s : State) : result State :=
  let* s1 := addBook 1001 "The C++ Programming Language" "B. Stroustrup" s in
  let* s2 := addBook 2042 "Clean Code" "Robert C. Martin" s1 in
  let* s3 := addBook 1005 "Introduction to Algorithms" "T. Cormen" s2 in
  let* s4 := addBook 3099 "Operating System Concepts" "A. Silberschatz" s3 in
  let* s5 := addBook 5001 "Computer Networking" "J. Kurose" s4 in
  Ok (emit ("Sample data loaded." +:+ endl +:+ endl) s5).

End LibraryManager.

Import LibraryManager.

(** ** Observations and invariants *)

(** The nodes of a tree in the order [inorderPrint] visits them. *)
Fixpoint inorder (node : BSTNode) : list ptr :=
  match node with
  | null => []
  | Node nb l r => inorder l ++ nb :: inorder r
  end.

(** The objects behind a sequence of addresses. *)
Definition objects (h : store) (ps : list ptr) : list Book :=
  omap (fun p => h !! p) ps.

(** The owned collection: the records behind [books], in insertion order. *)
Definition records (s : State) : list Book := objects (heap s) (books s).

(** The records a sorted listing shows, in the order it shows them. *)
Definition listing (s : State) : list Book :=
  objects (heap s) (inorder (titleIndex s)).

(** The catalog lines of a sequence of records. *)
Definition lines (bs : list Book) : string :=
  foldr (fun b acc => printDetails b +:+ acc) "" bs.

(** The record [searchById] finds: the result of [idIndex.search],
    followed as [res->printDetails()] follows it. *)
Definition findByKey (s : State) (key : Z) : result (option Book) :=
  let* res := HashTable.search (heap s) (idIndex s) key in
  match res with
  | Some p => let* b := deref (heap s) p in Ok (Some b)
  | None => Ok None
  end.

(** The record [searchByTitle] finds, in the same way. *)
Definition findByTitle (s : State) (key : string) : result (option Book) :=
  let* res := BST.search (heap s) (titleIndex s) key in
  match res with
  | Some p => let* b := deref (heap s) p in Ok (Some b)
  | None => Ok None
  end.

(** A record with this key is in the owned collection. *)
Definition has_key (s : State) (key : Z) : Prop := key ∈ id <$> records s.

(** A record with this title is in the owned collection. *)
Definition has_title (s : State) (ttl : string) : Prop :=
  ttl ∈ title <$> records s.

(** How often an address occurs in a chain. *)
Definition occurrences (p : ptr) (chain : list ptr) : nat :=
  length (filter (fun q => q = p) chain).

(** The part of the state a query must leave alone: everything but the
    output stream. *)
Definition same_catalog (s s' : State) : Prop :=
  heap s' = heap s /\ books s' = books s /\
  idIndex s' = idIndex s /\ titleIndex s' = titleIndex s.

(** Search-tree shape over the store [h]: every node holds a live address,
    the titles in its left subtree sort strictly before its own and the
    titles in its right subtree strictly after. *)
Inductive bst (h : store) : BSTNode -> Prop :=
  | bst_null : bst h null
  | bst_node nb n l r :
      h !! nb = Some n ->
      Forall (fun q => exists c, h !! q = Some c /\
                String.ltb (title c) (title n) = true) (inorder l) ->
      Forall (fun q => exists c, h !! q = Some c /\
                String.ltb (title n) (title c) = true) (inorder r) ->
      bst h l -> bst h r -> bst h (Node nb l r).

(** The consistency of the manager's three members with the store. *)
Record wf (s : State) : Prop := mkWf {
  wf_books : books s = seq 0 (length (heap s));
  wf_avail : Forall (fun b => isAvailable b = true) (heap s);
  wf_keys : NoDup (id <$> heap s);
  wf_table : length (idIndex s) = Z.to_nat HashTable.TABLE_SIZE;
  wf_chain_sound : forall (i : nat) chain p,
    idIndex s !! i = Some chain -> p ∈ chain ->
    exists b, heap s !! p = Some b /\ HashTable.hashFunction (id b) = Z.of_nat i;
  wf_chain_complete : forall p b,
    heap s !! p = Some b ->
    0 <= HashTable.hashFunction (id b) /\
    exists chain,
      idIndex s !! Z.to_nat (HashTable.hashFunction (id b)) = Some chain /\
      p ∈ chain;
  wf_chain_nodup : forall (i : nat) chain,
    idIndex s !! i = Some chain -> NoDup chain;
  wf_bst : bst (heap s) (titleIndex s);
  wf_tree_first : forall q c j c',
    q ∈ inorder (titleIndex s) -> heap s !! q = Some c ->
    heap s !! j = Some c' -> title c' = title c -> (q <= j)%nat;
  wf_tree_complete : forall j c,
    heap s !! j = Some c ->
    exists q c', q ∈ inorder (titleIndex s) /\ heap s !! q = Some c' /\
                 title c' = title c
}.

(** The states a run of the program passes through: the manager starts
    empty, the four operations run to completion, and the command loop
    writes its prompts in between. *)
Inductive reachable : State -> Prop :=
  | reach_init : reachable init
  | reach_prompt text s : reachable s -> reachable (emit text s)
  | reach_addBook key ttl aut s s' :
      reachable s -> addBook key ttl aut s = Ok s' -> reachable s'
  | reach_searchById key s s' :
      reachable s -> searchById key s = Ok s' -> reachable s'
  | reach_searchByTitle key s s' :
      reachable s -> searchByTitle key s = Ok s' -> reachable s'
  | reach_showAllBooks s s' :
      reachable s -> showAllBooks s = Ok s' -> reachable s'.

(** Two small catalogs for the examples: one holding the single record
    [(1, "A", "x")], and the one [loadSampleData] builds. *)
Definition after (r : result State) : State :=
  match r with
  | Ok s => s
  | Fault _ => init
  end.

Definition one_book : State := after (addBook 1 "A" "x" init).

Definition sample : State := after (loadSampleData init).

(** ** Runs, teardown and the shape of the indexes *)

(** [steps s s']: the program gets from [s] to [s'] by operations that run
    to completion and by prompts of the command loop. *)
Inductive steps : State -> State -> Prop :=
  | steps_refl s : steps s s
  | steps_prompt text s s' : steps s s' -> steps s (emit text s')
  | steps_addBook key ttl aut s s' s'' :
      steps s s' -> addBook key ttl aut s' = Ok s'' -> steps s s''
  | steps_searchById key s s' s'' :
      steps s s' -> searchById key s' = Ok s'' -> steps s s''
  | steps_searchByTitle key s s' s'' :
      steps s s' -> searchByTitle key s' = Ok s'' -> steps s s''
  | steps_showAllBooks s s' s'' :
      steps s s' -> showAllBooks s' = Ok s'' -> steps s s''.

(** [delete book] on the set of live [Book] objects: releasing an address
    that holds no live object (a second [delete]) has no defined behaviour. *)
Definition delete (live : list ptr) (book : ptr) : result (list ptr) :=
  if bool_decide (book ∈ live)
  then Ok (filter (fun q => q <> book) live)
  else Fault (DanglingPointer book).

(** The range-for of [LibraryManager::~LibraryManager]. *)
Fixpoint delete_books (live : list ptr) (bs : list ptr) : result (list ptr) :=
  match bs with
  | [] => Ok live
  | book :: rest => let* live' := delete live book in delete_books live' rest
  end.

(** [LibraryManager::~LibraryManager], run on a state in which no object
    has been released yet: the result is what is still live afterwards. *)
Definition destroy (s : State) : result (list ptr) :=
  delete_books (seq 0 (length (heap s))) (books s).

(** The bucket number of the record behind an address. *)
Definition bucket_of (h : store) (p : ptr) : option Z :=
  (fun b => HashTable.hashFunction (id b)) <$> h !! p.

(** A tree without left children: a linked list down the right. *)
Fixpoint spine (ps : list ptr) : BSTNode :=
  match ps with
  | [] => null
  | p :: rest => Node p null (spine rest)
  end.

(** The number of nodes on the longest path from the root. *)
Fixpoint height (node : BSTNode) : nat :=
  match node with
  | null => 0%nat
  | Node _ l r => S (Nat.max (height l) (height r))
  end.

(** [BST::insert] called for each address of a sequence in turn. *)
Definition insert_each (h : store) (root : BST.t) (ps : list ptr) : result BST.t :=
  foldl (fun acc p => let* t := acc in BST.insert h t p) (Ok root) ps.

(** ** The order on titles *)

Section TitleOrder.

Lemma ascii_compare_refl (c : ascii) : Ascii.compare c c = Eq.
Proof. unfold Ascii.compare. apply N.compare_refl. Qed.

Lemma ascii_compare_lt_trans (a b c : ascii) :
  Ascii.compare a b = Lt -> Ascii.compare b c = Lt -> Ascii.compare a c = Lt.
Proof.
  unfold Ascii.compare. rewrite !N.compare_lt_iff. apply N.lt_trans.
Qed.

Lemma compare_refl (s : string) : String.compare s s = Eq.
Proof. induction s as [|c s IH]; simpl; [done|]. by rewrite ascii_compare_refl. Qed.

Lemma compare_lt_trans (a b c : string) :
  String.compare a b = Lt -> String.compare b c = Lt -> String.compare a c = Lt.
Proof.
  revert b c. induction a as [|x a IH]; intros [|y b] [|z c]; simpl; try done.
  destruct (Ascii.compare x y) eqn:Hxy; try done;
    destruct (Ascii.compare y z) eqn:Hyz; try done.
  - apply Ascii.compare_eq_iff in Hxy, Hyz. subst.
    rewrite ascii_compare_refl. apply IH.
  - apply Ascii.compare_eq_iff in Hxy. subst. by rewrite Hyz.
  - apply Ascii.compare_eq_iff in Hyz. subst. by rewrite Hxy.
  - by rewrite (ascii_compare_lt_trans x y z).
Qed.

Lemma ltb_irrefl (s : string) : String.ltb s s = false.
Proof. unfold String.ltb. by rewrite compare_refl. Qed.

Lemma ltb_trans (a b c : string) :
  String.ltb a b = true -> String.ltb b c = true -> String.ltb a c = true.
Proof.
  unfold String.ltb. intros Hab Hbc.
  destruct (String.compare a b) eqn:E1; try done.
  destruct (String.compare b c) eqn:E2; try done.
  by rewrite (compare_lt_trans a b c).
Qed.

Lemma ltb_asym (a b : string) : String.ltb a b = true -> String.ltb b a = false.
Proof.
  intros H. destruct (String.ltb b a) eqn:E; [|done].
  by rewrite <- (ltb_irrefl a), (ltb_trans a b a).
Qed.

(** Neither [a < b] nor [a > b]: the two titles are the same string. *)
Lemma ltb_total (a b : string) :
  String.ltb a b = false -> String.ltb b a = false -> a = b.
Proof.
  unfold String.ltb. rewrite (String.compare_antisym b a).
  destruct (String.compare a b) eqn:E; simpl; try done.
  intros _ _. by apply String.compare_eq_iff.
Qed.

Lemma ltb_leb (a b : string) : String.ltb a b = true -> String.leb a b = true.
Proof. unfold String.ltb, String.leb. by destruct (String.compare a b). Qed.

End TitleOrder.

(** ** The error monad and the store *)

Lemma bind_Ok {A B : Type} (m : result A) (k : A -> result B) (b : B) :
  bind m k = Ok b -> exists a, m = Ok a /\ k a = Ok b.
Proof. destruct m as [a|f]; simpl; [eauto | done]. Qed.

Lemma deref_Ok (h : store) (p : ptr) (b : Book) :
  deref h p = Ok b <-> h !! p = Some b.
Proof. unfold deref. destruct (h !! p); naive_solver. Qed.

Lemma deref_Some (h : store) (p : ptr) (b : Book) :
  h !! p = Some b -> deref h p = Ok b.
Proof. apply deref_Ok. Qed.

(** ** The hash table *)

Lemma hashFunction_range (key : Z) :
  - HashTable.TABLE_SIZE < HashTable.hashFunction key < HashTable.TABLE_SIZE.
Proof.
  unfold HashTable.hashFunction, HashTable.TABLE_SIZE.
  Z.to_euclidean_division_equations. lia.
Qed.

Lemma at_index_Ok (table : HashTable.t) (index : Z) (chain : list ptr) :
  HashTable.at_index table index = Ok chain <->
  0 <= index < HashTable.TABLE_SIZE /\ table !! Z.to_nat index = Some chain.
Proof.
  unfold HashTable.at_index. case_bool_decide as Hi.
  - destruct (table !! Z.to_nat index) as [c|].
    + split; [intros [= ->]; done | intros [_ [= ->]]; done].
    + split; [done | intros [_ [=]]].
  - split; [done | intros [Hr _]; done].
Qed.

Lemma at_index_total (table : HashTable.t) (index : Z) :
  length table = Z.to_nat HashTable.TABLE_SIZE ->
  0 <= index < HashTable.TABLE_SIZE ->
  exists chain, HashTable.at_index table index = Ok chain.
Proof.
  intros Hlen Hi. unfold HashTable.TABLE_SIZE in *.
  destruct (lookup_lt_is_Some_2 table (Z.to_nat index)) as [chain Hc]; [lia|].
  exists chain. by apply at_index_Ok.
Qed.

Lemma at_index_negative (table : HashTable.t) (index : Z) :
  index < 0 -> HashTable.at_index table index = Fault (OutOfBounds index).
Proof.
  intros H. unfold HashTable.at_index. case_bool_decide; [lia | done].
Qed.

(** The scan of a chain of live addresses returns the first address whose
    object has the key, or nothing when no object of the chain has it. *)
Lemma scan_spec (h : store) (chain : list ptr) (key : Z) :
  Forall (fun p => is_Some (h !! p)) chain ->
  exists r, HashTable.scan h chain key = Ok r /\
    match r with
    | Some p => p ∈ chain /\ exists b, h !! p = Some b /\ id b = key
    | None => forall p b, p ∈ chain -> h !! p = Some b -> id b <> key
    end.
Proof.
  induction 1 as [|p chain [b Hb] _ IH]; simpl.
  - exists None. split; [done|]. intros p b Hp. by apply elem_of_nil in Hp.
  - rewrite (deref_Some _ _ _ Hb). simpl.
    destruct (Z.eqb_spec (id b) key) as [Heq|Hne].
    + exists (Some p). split; [done|]. split; [left|]. eauto.
    + destruct IH as (r & Hr & Hspec). exists r. split; [done|].
      destruct r as [q|].
      * destruct Hspec as [Hq Hex]. split; [by right | done].
      * intros q c Hq Hc. apply elem_of_cons in Hq as [->|Hq].
        -- congruence.
        -- eauto.
Qed.

(** ** The search tree *)

Lemma lookup_grow (h : store) (extra : list Book) (p : ptr) (b : Book) :
  h !! p = Some b -> (h ++ extra) !! p = Some b.
Proof. apply lookup_app_l_Some. Qed.

Lemma bst_grow (h : store) (extra : list Book) (node : BSTNode) :
  bst h node -> bst (h ++ extra) node.
Proof.
  induction 1 as [|nb n l r Hn Hl Hr _ IHl _ IHr]; [constructor|].
  apply (bst_node _ nb n); auto using lookup_grow.
  - eapply Forall_impl; [exact Hl|]. intros q (c & Hc & Hlt).
    exists c. auto using lookup_grow.
  - eapply Forall_impl; [exact Hr|]. intros q (c & Hc & Hlt).
    exists c. auto using lookup_grow.
Qed.

Lemma bst_live (h : store) (node : BSTNode) :
  bst h node -> Forall (fun q => is_Some (h !! q)) (inorder node).
Proof.
  induction 1 as [|nb n l r Hn Hl Hr _ IHl _ IHr]; simpl; [constructor|].
  apply Forall_app. split; [done|]. constructor; [by exists n | done].
Qed.

(** [insertRecursive] on a search tree: a title the tree already has leaves
    the tree as it is; a new title adds the address as one more node. *)
Lemma insertRecursive_spec (h : store) (node : BSTNode) (book : ptr) (b : Book) :
  bst h node -> h !! book = Some b ->
  exists node', BST.insertRecursive h node book = Ok node' /\ bst h node' /\
    ((node' = node /\
      exists q c, q ∈ inorder node /\ h !! q = Some c /\ title c = title b)
     \/
     (inorder node' ≡ₚ book :: inorder node /\
      forall q c, q ∈ inorder node -> h !! q = Some c -> title c <> title b)).
Proof.
  intros Hbst Hb.
  induction Hbst as [|nb n l r Hn Hl Hr Hbl IHl Hbr IHr]; simpl.
  - exists (Node book null null). split; [done|]. split.
    + apply (bst_node _ book b); auto using bst_null.
    + right. split; [done|]. intros q c Hq. by apply elem_of_nil in Hq.
  - rewrite (deref_Some _ _ _ Hb), (deref_Some _ _ _ Hn). simpl.
    destruct (String.ltb (title b) (title n)) eqn:Hlt.
    { destruct IHl as (l' & -> & Hbl' & Hcase). simpl.
      exists (Node nb l' r). split; [done|].
      destruct Hcase as [(-> & q & c & Hq & Hc & Heq) | (Hperm & Hnew)].
      - split; [by apply (bst_node _ nb n)|]. left. split; [done|].
        exists q, c. rewrite elem_of_app. auto.
      - split.
        + apply (bst_node _ nb n); auto.
          rewrite Hperm. constructor; [by exists b | done].
        + right. split; [simpl; by rewrite Hperm|].
          intros q c Hq Hc Heq.
          apply elem_of_app in Hq as [Hq | Hq]; [by eapply Hnew|].
          apply elem_of_cons in Hq as [-> | Hq].
          * assert (c = n) as -> by congruence.
            rewrite Heq in Hlt. by rewrite ltb_irrefl in Hlt.
          * rewrite Forall_forall in Hr.
            destruct (Hr q Hq) as (c' & Hc' & Hgt).
            assert (c' = c) as -> by congruence.
            rewrite Heq in Hgt. by rewrite (ltb_asym _ _ Hlt) in Hgt. }
    destruct (String.ltb (title n) (title b)) eqn:Hgt.
    { destruct IHr as (r' & -> & Hbr' & Hcase). simpl.
      exists (Node nb l r'). split; [done|].
      destruct Hcase as [(-> & q & c & Hq & Hc & Heq) | (Hperm & Hnew)].
      - split; [by apply (bst_node _ nb n)|]. left. split; [done|].
        exists q, c. rewrite elem_of_app, elem_of_cons. auto.
      - split.
        + apply (bst_node _ nb n); auto.
          rewrite Hperm. constructor; [by exists b | done].
        + right. split.
          { simpl. rewrite Hperm, <- !Permutation_middle. apply perm_swap. }
          intros q c Hq Hc Heq.
          apply elem_of_app in Hq as [Hq | Hq].
          * rewrite Forall_forall in Hl.
            destruct (Hl q Hq) as (c' & Hc' & Hlt').
            assert (c' = c) as -> by congruence.
            rewrite Heq in Hlt'. by rewrite (ltb_asym _ _ Hgt) in Hlt'.
          * apply elem_of_cons in Hq as [-> | Hq]; [|by eapply Hnew].
            assert (c = n) as -> by congruence.
            rewrite Heq in Hgt. by rewrite ltb_irrefl in Hgt. }
    exists (Node nb l r). split; [done|]. split; [by apply (bst_node _ nb n)|].
    left. split; [done|]. exists nb, n.
    rewrite elem_of_app, elem_of_cons. split; [auto|]. split; [done|].
    symmetry. by apply ltb_total.
Qed.

(** [searchRecursive] on a search tree returns a node with the title, or
    nothing when no node has it. *)
Lemma searchRecursive_spec (h : store) (node : BSTNode) (key : string) :
  bst h node ->
  exists res, BST.searchRecursive h node key = Ok res /\
    match res with
    | Some q => q ∈ inorder node /\ exists c, h !! q = Some c /\ title c = key
    | None => forall q c, q ∈ inorder node -> h !! q = Some c -> title c <> key
    end.
Proof.
  induction 1 as [|nb n l r Hn Hl Hr Hbl IHl Hbr IHr]; simpl.
  - exists None. split; [done|]. intros q c Hq. by apply elem_of_nil in Hq.
  - rewrite (deref_Some _ _ _ Hn). simpl.
    destruct (String.eqb_spec (title n) key) as [Heq | Hne].
    { exists (Some nb). split; [done|].
      rewrite elem_of_app, elem_of_cons. eauto 6. }
    destruct (String.ltb key (title n)) eqn:Hlt.
    + destruct IHl as (res & -> & Hres). exists res. split; [done|].
      destruct res as [q|].
      * destruct Hres as [Hq Hex]. rewrite elem_of_app. auto.
      * intros q c Hq Hc Heq.
        apply elem_of_app in Hq as [Hq | Hq]; [by eapply Hres|].
        apply elem_of_cons in Hq as [-> | Hq]; [congruence|].
        rewrite Forall_forall in Hr.
        destruct (Hr q Hq) as (c' & Hc' & Hgt).
        assert (c' = c) as -> by congruence.
        rewrite Heq in Hgt. by rewrite (ltb_asym _ _ Hlt) in Hgt.
    + destruct IHr as (res & -> & Hres). exists res. split; [done|].
      destruct res as [q|].
      * destruct Hres as [Hq Hex]. rewrite elem_of_app, elem_of_cons. auto.
      * intros q c Hq Hc Heq.
        apply elem_of_app in Hq as [Hq | Hq].
        -- rewrite Forall_forall in Hl.
           destruct (Hl q Hq) as (c' & Hc' & Hlt').
           assert (c' = c) as -> by congruence.
           rewrite Heq in Hlt'. congruence.
        -- apply elem_of_cons in Hq as [-> | Hq]; [congruence | by eapply Hres].
Qed.

(** ** Addresses and the objects behind them *)

Lemma objects_app (h : store) (ps qs : list ptr) :
  objects h (ps ++ qs) = objects h ps ++ objects h qs.
Proof. apply omap_app. Qed.

Lemma objects_cons (h : store) (p : ptr) (b : Book) (ps : list ptr) :
  h !! p = Some b -> objects h (p :: ps) = b :: objects h ps.
Proof. intros Hp. unfold objects. simpl. by rewrite Hp. Qed.

Lemma elem_of_objects (h : store) (ps : list ptr) (b : Book) :
  b ∈ objects h ps <-> exists p, p ∈ ps /\ h !! p = Some b.
Proof. apply list_elem_of_omap. Qed.

Lemma objects_grow (h : store) (extra : list Book) (ps : list ptr) :
  Forall (fun p => is_Some (h !! p)) ps ->
  objects (h ++ extra) ps = objects h ps.
Proof.
  induction 1 as [|p ps [b Hb] _ IH]; [done|].
  rewrite (objects_cons _ _ _ _ Hb).
  rewrite (objects_cons _ _ _ _ (lookup_grow _ extra _ _ Hb)). by rewrite IH.
Qed.

(** The addresses [0, 1, ..] in allocation order stand for the whole store. *)
Lemma objects_seq (h : store) : objects h (seq 0 (length h)) = h.
Proof.
  induction h as [|b h IH] using rev_ind; [done|].
  rewrite length_app. simpl. rewrite seq_app. simpl.
  rewrite objects_app, objects_grow, IH.
  - rewrite (objects_cons _ _ b); [done|]. by apply list_lookup_middle.
  - apply Forall_forall. intros p Hp. apply elem_of_seq in Hp.
    apply lookup_lt_is_Some. lia.
Qed.

(** ** The sorted listing *)

Lemma append_assoc (a b c : string) : (a +:+ b) +:+ c = a +:+ (b +:+ c).
Proof.
  induction a as [|x a IH]; [done|].
  change (String x ((a +:+ b) +:+ c) = String x (a +:+ (b +:+ c))).
  by rewrite IH.
Qed.

Lemma append_nil_r (a : string) : a +:+ "" = a.
Proof.
  induction a as [|x a IH]; [done|].
  change (String x (a +:+ "") = String x a). by rewrite IH.
Qed.

Lemma lines_app (xs ys : list Book) : lines (xs ++ ys) = lines xs +:+ lines ys.
Proof.
  induction xs as [|x xs IH]; simpl; [done|]. by rewrite IH, append_assoc.
Qed.

(** [inorderPrint] appends one catalog line per node, in traversal order. *)
Lemma inorderPrint_spec (h : store) (node : BSTNode) (out : string) :
  bst h node ->
  BST.inorderPrint h node out = Ok (out +:+ lines (objects h (inorder node))).
Proof.
  intros Hbst. revert out.
  induction Hbst as [|nb n l r Hn Hl Hr Hbl IHl Hbr IHr]; intros out; simpl.
  - by rewrite append_nil_r.
  - rewrite IHl. simpl. rewrite (deref_Some _ _ _ Hn). simpl. rewrite IHr.
    rewrite objects_app, (objects_cons _ _ _ _ Hn), lines_app. simpl.
    by rewrite !append_assoc.
Qed.

(** The listing of a search tree is strictly increasing in the title. *)
Lemma bst_sorted (h : store) (node : BSTNode) :
  bst h node ->
  StronglySorted (fun a b => String.ltb (title a) (title b) = true)
                 (objects h (inorder node)).
Proof.
  induction 1 as [|nb n l r Hn Hl Hr Hbl IHl Hbr IHr]; simpl.
  - constructor.
  - rewrite objects_app, (objects_cons _ _ _ _ Hn).
    rewrite Forall_forall in Hl. rewrite Forall_forall in Hr.
    assert (forall c, c ∈ objects h (inorder r) ->
              String.ltb (title n) (title c) = true) as Hright.
    { intros c (q & Hq & Hc)%elem_of_objects.
      destruct (Hr q Hq) as (c' & Hc' & Hgt). congruence. }
    apply StronglySorted_app_2; [|done|].
    + intros a c (q & Hq & Ha)%elem_of_objects Hc.
      destruct (Hl q Hq) as (a' & Ha' & Hlt).
      assert (a' = a) as -> by congruence.
      apply elem_of_cons in Hc as [-> | Hc]; [done|].
      eapply ltb_trans; [exact Hlt | by apply Hright].
    + constructor; [done|]. by apply Forall_forall.
Qed.

Lemma sorted_weaken {A : Type} (R S : A -> A -> Prop) (l : list A) :
  (forall a b, R a b -> S a b) -> StronglySorted R l -> StronglySorted S l.
Proof.
  intros HRS. induction 1 as [|a l _ IH Hall]; constructor; [done|].
  eapply Forall_impl; [exact Hall|]. auto.
Qed.

Lemma sorted_titles_NoDup (bs : list Book) :
  StronglySorted (fun a b => String.ltb (title a) (title b) = true) bs ->
  NoDup (title <$> bs).
Proof.
  induction 1 as [|a l _ IH Hall]; simpl; constructor; [|done].
  intros (c & Heq & Hc)%list_elem_of_fmap.
  rewrite Forall_forall in Hall. specialize (Hall c Hc).
  rewrite Heq in Hall. by rewrite ltb_irrefl in Hall.
Qed.

Lemma titles_absent (bs : list Book) (ttl : string) :
  ttl ∉ title <$> bs -> filter (fun b => title b = ttl) bs = [].
Proof.
  induction bs as [|b bs IH]; simpl; intros Hnot; [done|].
  apply not_elem_of_cons in Hnot as [Hne Hnot].
  rewrite filter_cons_False by congruence. by apply IH.
Qed.

(** In a list without repeated titles a title that occurs, occurs once. *)
Lemma titles_once (bs : list Book) (ttl : string) :
  NoDup (title <$> bs) -> ttl ∈ title <$> bs ->
  length (filter (fun b => title b = ttl) bs) = 1%nat.
Proof.
  induction bs as [|b bs IH]; simpl; intros Hnd Hin.
  - by apply elem_of_nil in Hin.
  - apply NoDup_cons in Hnd as [Hb Hnd].
    destruct (decide (title b = ttl)) as [Heq | Hne].
    + rewrite filter_cons_True by done. simpl.
      rewrite titles_absent; [done | by rewrite <- Heq].
    + rewrite filter_cons_False by done.
      apply elem_of_cons in Hin as [Hin | Hin]; [congruence | by apply IH].
Qed.

(** ** The manager keeps its members consistent *)

Lemma wf_init : wf init.
Proof.
  split; simpl.
  - done.
  - constructor.
  - apply NoDup_nil_2.
  - done.
  - intros i chain p Hi Hp. unfold HashTable.empty in Hi.
    apply lookup_replicate in Hi as [-> _]. by apply elem_of_nil in Hp.
  - intros p b Hp. done.
  - intros i chain Hi. unfold HashTable.empty in Hi.
    apply lookup_replicate in Hi as [-> _]. apply NoDup_nil_2.
  - constructor.
  - intros q c j c' Hq. by apply elem_of_nil in Hq.
  - intros j c Hj. done.
Qed.

Lemma wf_emit (text : string) (s : State) : wf s -> wf (emit text s).
Proof. intros []. by split. Qed.

Lemma wf_chain_live (s : State) (i : nat) (chain : list ptr) :
  wf s -> idIndex s !! i = Some chain ->
  Forall (fun p => is_Some (heap s !! p)) chain.
Proof.
  intros W Hi. apply Forall_forall. intros p Hp.
  destruct (wf_chain_sound s W i chain p Hi Hp) as (b & Hb & _). by exists b.
Qed.

Lemma records_heap (s : State) : wf s -> records s = heap s.
Proof. intros W. unfold records. rewrite (wf_books s W). apply objects_seq. Qed.

(** No address of the owner vector is dangling: every entry has its record. *)
Lemma records_length (s : State) : wf s -> length (records s) = length (books s).
Proof.
  intros W. rewrite (records_heap s W), (wf_books s W). by rewrite length_seq.
Qed.

(** What [HashTable::search] returns on a consistent manager. *)
Lemma search_spec (s : State) (key : Z) :
  wf s -> 0 <= HashTable.hashFunction key ->
  exists res, HashTable.search (heap s) (idIndex s) key = Ok res /\
    match res with
    | Some p => exists b, heap s !! p = Some b /\ id b = key
    | None => key ∉ id <$> heap s
    end.
Proof.
  intros W Hpos. unfold HashTable.search.
  destruct (at_index_total (idIndex s) (HashTable.hashFunction key))
    as [chain Hchain]; [by apply wf_table | |].
  { pose proof (hashFunction_range key). lia. }
  rewrite Hchain. simpl.
  apply at_index_Ok in Hchain as [_ Hchain].
  destruct (scan_spec (heap s) chain key) as (res & Hres & Hspec).
  { by eapply wf_chain_live. }
  exists res. split; [done|]. destruct res as [p|]; [tauto|].
  intros (b & Hkey & Hb)%list_elem_of_fmap.
  apply list_elem_of_lookup in Hb as [p Hp].
  destruct (wf_chain_complete s W p b Hp) as (_ & chain' & Hc' & Hin).
  rewrite <- Hkey in Hc'. rewrite Hchain in Hc'. injection Hc' as <-.
  by eapply Hspec.
Qed.

Lemma search_Ok_bounds (h : store) (table : HashTable.t) (key : Z) res :
  HashTable.search h table key = Ok res ->
  0 <= HashTable.hashFunction key < HashTable.TABLE_SIZE.
Proof.
  unfold HashTable.search. intros (chain & Hchain & _)%bind_Ok.
  by apply at_index_Ok in Hchain as [? _].
Qed.

Lemma search_negative (h : store) (table : HashTable.t) (key : Z) :
  HashTable.hashFunction key < 0 ->
  HashTable.search h table key = Fault (OutOfBounds (HashTable.hashFunction key)).
Proof.
  intros Hneg. unfold HashTable.search. by rewrite at_index_negative.
Qed.

(** A key the table does not find is added: one new object, one new owner
    entry, one new chain entry, and a tree node unless the title is taken. *)
Lemma addBook_fresh (s : State) (key : Z) (ttl aut : string) :
  wf s -> HashTable.search (heap s) (idIndex s) key = Ok None ->
  exists s', addBook key ttl aut s = Ok s' /\ wf s' /\
    heap s' = heap s ++ [Book_new key ttl aut] /\
    books s' = books s ++ [length (heap s)] /\
    cout s' = cout s +:+ "Added: " +:+ ttl +:+ endl.
Proof.
  intros W Hsearch.
  pose proof (search_Ok_bounds _ _ _ _ Hsearch) as Hbounds.
  destruct (search_spec s key W) as (res & Hres & Hfresh); [lia|].
  rewrite Hsearch in Hres. injection Hres as <-.
  unfold addBook. rewrite Hsearch. simpl.
  set (nb := Book_new key ttl aut). set (new := length (heap s)).
  set (h' := heap s ++ [nb]).
  assert (h' !! new = Some nb) as Hnew by by apply list_lookup_middle.
  assert (forall p, is_Some (heap s !! p) -> p <> new) as Hold.
  { intros p Hp%lookup_lt_is_Some. unfold new. lia. }
  destruct (at_index_total (idIndex s) (HashTable.hashFunction key))
    as [chain Hchain]; [by apply wf_table | done |].
  unfold HashTable.insert. rewrite (deref_Some _ _ _ Hnew). simpl.
  rewrite Hchain. simpl.
  apply at_index_Ok in Hchain as [_ Hchain].
  set (i := Z.to_nat (HashTable.hashFunction key)) in *.
  assert (i < length (idIndex s))%nat as Hi by by eapply lookup_lt_Some.
  destruct (insertRecursive_spec h' (titleIndex s) new nb)
    as (tree' & Htree' & Hbst' & Hcase);
    [apply bst_grow, (wf_bst s W) | done |].
  unfold BST.insert. rewrite Htree'. simpl.
  eexists. split; [done|]. split; [|done].
  pose proof (bst_live _ _ (wf_bst s W)) as Hlive.
  rewrite Forall_forall in Hlive.
  subst h'. split; simpl.
  - rewrite (wf_books s W), length_app. simpl.
    by rewrite seq_app.
  - apply Forall_app. split; [apply (wf_avail s W) | by constructor].
  - rewrite fmap_app. apply NoDup_app.
    split; [apply (wf_keys s W)|]. split; [|apply NoDup_singleton].
    intros k Hk ->%list_elem_of_singleton. done.
  - rewrite length_insert. apply (wf_table s W).
  - intros j chain' p Hj Hp.
    apply list_lookup_insert_Some in Hj as [(<- & <- & _) | (Hne & Hj)].
    + apply elem_of_app in Hp as [Hp | ->%list_elem_of_singleton].
      * destruct (wf_chain_sound s W i chain p Hchain Hp) as (b & Hb & Hh).
        exists b. split; [by apply lookup_grow | done].
      * exists nb. split; [done|]. simpl. unfold i. lia.
    + destruct (wf_chain_sound s W j chain' p Hj Hp) as (b & Hb & Hh).
      exists b. split; [by apply lookup_grow | done].
  - intros p b Hp. apply lookup_app_Some in Hp as [Hp | [Hlen Hp]].
    + destruct (wf_chain_complete s W p b Hp) as (Hpos & chain' & Hc' & Hin).
      split; [done|].
      destruct (decide (Z.to_nat (HashTable.hashFunction (id b)) = i)) as [Heq|Hne].
      * rewrite Heq in Hc'. rewrite Heq.
        assert (chain' = chain) as -> by congruence.
        exists (chain ++ [new]).
        rewrite list_lookup_insert_eq by done. split; [done|].
        apply elem_of_app. by left.
      * exists chain'. by rewrite list_lookup_insert_ne.
    + destruct (p - length (heap s))%nat eqn:Hd; [|done].
      injection Hp as <-. simpl. split; [lia|].
      exists (chain ++ [new]). rewrite list_lookup_insert_eq by done.
      split; [done|]. apply elem_of_app. right. apply list_elem_of_singleton.
      unfold new. lia.
  - intros j chain' Hj.
    apply list_lookup_insert_Some in Hj as [(<- & <- & _) | (Hne & Hj)];
      [|by apply (wf_chain_nodup s W j)].
    apply NoDup_app. split; [by apply (wf_chain_nodup s W i)|].
    split; [|apply NoDup_singleton].
    intros p Hp ->%list_elem_of_singleton.
    destruct (wf_chain_sound s W i chain new Hchain Hp) as (b & Hb & _).
    by apply (Hold new); [exists b|].
  - done.
  - intros q c j c' Hq Hc Hj Heq.
    assert (j <= new)%nat as Hjn.
    { apply lookup_lt_Some in Hj.
      rewrite length_app in Hj. simpl in Hj. unfold new. lia. }
    assert (forall q, q ∈ inorder (titleIndex s) -> (q < new)%nat) as Hlt.
    { intros q' Hq'. apply Hlive, lookup_lt_is_Some in Hq'. done. }
    assert (q ∈ inorder (titleIndex s) -> (q <= j)%nat) as Holdq.
    { intros Hq'. destruct (decide (j = new)) as [-> | Hjne].
      { apply Hlt in Hq'. lia. }
      destruct (Hlive q Hq') as [c0 Hc0].
      assert (c0 = c) as -> by (apply (lookup_grow _ [nb]) in Hc0; congruence).
      apply lookup_app_Some in Hj as [Hj | [Hlen _]].
      - by apply (wf_tree_first s W q c j c').
      - unfold new in *. lia. }
    destruct Hcase as [(-> & _) | (Hperm & Hnone)]; [by apply Holdq|].
    rewrite Hperm in Hq. apply elem_of_cons in Hq as [-> | Hq]; [|by apply Holdq].
    destruct (decide (j = new)) as [-> | Hjne]; [done|]. exfalso.
    apply lookup_app_Some in Hj as [Hj | [Hlen _]]; [|unfold new in *; lia].
    destruct (wf_tree_complete s W j c' Hj) as (q' & c'' & Hq' & Hc'' & Ht).
    apply (Hnone q' c'' Hq'); [by apply lookup_grow|].
    assert (c = nb) as -> by congruence. congruence.
  - intros j c Hj.
    assert (forall q, q ∈ inorder (titleIndex s) -> q ∈ inorder tree') as Hsub.
    { intros q Hq. destruct Hcase as [(-> & _) | (Hperm & _)]; [done|].
      rewrite Hperm. by right. }
    apply lookup_app_Some in Hj as [Hj | [Hlen Hj]].
    + destruct (wf_tree_complete s W j c Hj) as (q & c' & Hq & Hc' & Ht).
      exists q, c'. split; [by apply Hsub|]. split; [by apply lookup_grow | done].
    + destruct (j - length (heap s))%nat eqn:Hd; [|done].
      injection Hj as <-.
      destruct Hcase as [(-> & q & c & Hq & Hc & Ht) | (Hperm & _)].
      * by exists q, c.
      * exists new, nb. split; [|done]. rewrite Hperm. by left.
Qed.

Lemma wf_same (s s' : State) : wf s -> same_catalog s s' -> wf s'.
Proof.
  intros [] (Hh & Hb & Hi & Ht). split; rewrite ?Hh, ?Hb, ?Hi, ?Ht; done.
Qed.

Lemma same_catalog_emit (text : string) (s : State) : same_catalog s (emit text s).
Proof. by repeat split. Qed.

Lemma addBook_duplicate (s : State) (key : Z) (ttl aut : string) (p : ptr) :
  HashTable.search (heap s) (idIndex s) key = Ok (Some p) ->
  addBook key ttl aut s =
    Ok (emit ("Error: Book ID " +:+ show_int key +:+ " already exists." +:+ endl) s).
Proof. intros Hs. unfold addBook. by rewrite Hs. Qed.

Lemma addBook_wf (s s' : State) (key : Z) (ttl aut : string) :
  wf s -> addBook key ttl aut s = Ok s' -> wf s'.
Proof.
  intros W Hadd.
  destruct (HashTable.search (heap s) (idIndex s) key) as [[p|]|f] eqn:Hs.
  - rewrite (addBook_duplicate _ _ _ _ _ Hs) in Hadd. injection Hadd as <-.
    by apply wf_emit.
  - destruct (addBook_fresh s key ttl aut W Hs) as (s'' & Hadd' & W' & _).
    congruence.
  - unfold addBook in Hadd. by rewrite Hs in Hadd.
Qed.

(** The three queries end in the state they started in, but for the text
    they wrote. *)
Lemma searchById_same (s s' : State) (key : Z) :
  searchById key s = Ok s' -> same_catalog s s'.
Proof.
  unfold searchById. intros (res & _ & Hres)%bind_Ok.
  destruct res as [p|].
  - apply bind_Ok in Hres as (b & _ & [= <-]). apply same_catalog_emit.
  - injection Hres as <-. apply same_catalog_emit.
Qed.

Lemma searchByTitle_same (s s' : State) (key : string) :
  searchByTitle key s = Ok s' -> same_catalog s s'.
Proof.
  unfold searchByTitle. intros (res & _ & Hres)%bind_Ok.
  destruct res as [p|].
  - apply bind_Ok in Hres as (b & _ & [= <-]). apply same_catalog_emit.
  - injection Hres as <-. apply same_catalog_emit.
Qed.

Lemma showAllBooks_same (s s' : State) :
  showAllBooks s = Ok s' -> same_catalog s s'.
Proof.
  unfold showAllBooks. intros (out & _ & [= <-])%bind_Ok. by repeat split.
Qed.

Lemma reachable_wf (s : State) : reachable s -> wf s.
Proof.
  induction 1 as [|text s _ IH|key ttl aut s s' _ IH Hop|key s s' _ IH Hop
                  |key s s' _ IH Hop|s s' _ IH Hop].
  - apply wf_init.
  - by apply wf_emit.
  - by eapply addBook_wf.
  - eapply wf_same; [exact IH | by eapply searchById_same].
  - eapply wf_same; [exact IH | by eapply searchByTitle_same].
  - eapply wf_same; [exact IH | by eapply showAllBooks_same].
Qed.

(** ** What the lookups return *)

Lemma findByKey_present (s : State) (p : ptr) (b : Book) :
  wf s -> heap s !! p = Some b ->
  HashTable.search (heap s) (idIndex s) (id b) = Ok (Some p) /\
  findByKey s (id b) = Ok (Some b).
Proof.
  intros W Hp.
  destruct (wf_chain_complete s W p b Hp) as (Hpos & _).
  destruct (search_spec s (id b) W Hpos) as (res & Hres & Hspec).
  destruct res as [q|].
  - destruct Hspec as (c & Hq & Hid).
    assert (q = p) as ->.
    { eapply (NoDup_lookup (id <$> heap s)); [apply (wf_keys s W) | |].
      - rewrite list_lookup_fmap, Hq. simpl. by rewrite Hid.
      - by rewrite list_lookup_fmap, Hp. }
    split; [done|]. unfold findByKey. rewrite Hres. simpl.
    by rewrite (deref_Some _ _ _ Hp).
  - exfalso. apply Hspec. apply list_elem_of_fmap. exists b. split; [done|].
    by eapply list_elem_of_lookup_2.
Qed.

Lemma findByKey_absent (s : State) (key : Z) :
  wf s -> 0 <= HashTable.hashFunction key -> key ∉ id <$> heap s ->
  HashTable.search (heap s) (idIndex s) key = Ok None /\
  findByKey s key = Ok None.
Proof.
  intros W Hpos Hnot.
  destruct (search_spec s key W Hpos) as (res & Hres & Hspec).
  destruct res as [q|].
  - destruct Hspec as (c & Hq & Hid). exfalso. apply Hnot.
    apply list_elem_of_fmap. exists c. split; [done|].
    by eapply list_elem_of_lookup_2.
  - split; [done|]. unfold findByKey. by rewrite Hres.
Qed.

Lemma findByKey_negative (s : State) (key : Z) :
  HashTable.hashFunction key < 0 ->
  findByKey s key = Fault (OutOfBounds (HashTable.hashFunction key)).
Proof. intros Hneg. unfold findByKey. by rewrite search_negative. Qed.

(** [searchByTitle] finds the earliest record that has the title. *)
Lemma findByTitle_first (s : State) (p : ptr) (b : Book) :
  wf s -> heap s !! p = Some b ->
  (forall j c, (j < p)%nat -> heap s !! j = Some c -> title c <> title b) ->
  BST.search (heap s) (titleIndex s) (title b) = Ok (Some p) /\
  findByTitle s (title b) = Ok (Some b).
Proof.
  intros W Hp Hfirst.
  destruct (searchRecursive_spec (heap s) (titleIndex s) (title b) (wf_bst s W))
    as (res & Hres & Hspec).
  destruct res as [q|].
  - destruct Hspec as (Hq & c & Hc & Ht).
    pose proof (wf_tree_first s W q c p b Hq Hc Hp (eq_sym Ht)) as Hle.
    assert (q = p) as ->.
    { destruct (decide (q = p)) as [|Hne]; [done|]. exfalso.
      apply (Hfirst q c); [lia | done | done]. }
    split; [done|]. unfold findByTitle, BST.search. rewrite Hres. simpl.
    by rewrite (deref_Some _ _ _ Hp).
  - exfalso. destruct (wf_tree_complete s W p b Hp) as (q & c & Hq & Hc & Ht).
    by apply (Hspec q c).
Qed.

Lemma findByTitle_absent (s : State) (ttl : string) :
  wf s -> ttl ∉ title <$> heap s ->
  BST.search (heap s) (titleIndex s) ttl = Ok None /\
  findByTitle s ttl = Ok None.
Proof.
  intros W Hnot.
  destruct (searchRecursive_spec (heap s) (titleIndex s) ttl (wf_bst s W))
    as (res & Hres & Hspec).
  destruct res as [q|].
  - destruct Hspec as (Hq & c & Hc & Ht). exfalso. apply Hnot.
    apply list_elem_of_fmap. exists c. split; [done|].
    by eapply list_elem_of_lookup_2.
  - split; [done|]. unfold findByTitle, BST.search. by rewrite Hres.
Qed.

(** The methods print what the lookups return. *)
Lemma searchById_findByKey (s : State) (key : Z) :
  searchById key s =
    let* found := findByKey s key in
    Ok (emit (match found with
              | Some b => endl +:+ "[Found by ID]" +:+ endl +:+ printDetails b
              | None => "Book not found (ID: " +:+ show_int key +:+ ")" +:+ endl
              end) s).
Proof.
  unfold searchById, findByKey.
  destruct (HashTable.search (heap s) (idIndex s) key) as [[p|]|f]; simpl; try done.
  by destruct (deref (heap s) p).
Qed.

Lemma searchByTitle_findByTitle (s : State) (key : string) :
  searchByTitle key s =
    let* found := findByTitle s key in
    Ok (emit (match found with
              | Some b => endl +:+ "[Found by Title]" +:+ endl +:+ printDetails b
              | None => "Book not found (Title: " +:+ key +:+ ")" +:+ endl
              end) s).
Proof.
  unfold searchByTitle, findByTitle.
  destruct (BST.search (heap s) (titleIndex s) key) as [[p|]|f]; simpl; try done.
  by destruct (deref (heap s) p).
Qed.

(** [showAllBooks] prints the listing between its two rules. *)
Lemma showAllBooks_listing (s : State) :
  wf s ->
  showAllBooks s =
    Ok (emit (endl +:+ "=== Library Catalog (Sorted by Title) ===" +:+ endl
              +:+ (match listing s with
                   | [] => "No books in the library." +:+ endl
                   | b :: bs => lines (b :: bs)
                   end)
              +:+ "=========================================" +:+ endl) s).
Proof.
  intros W. unfold showAllBooks, BST.printAll, listing, emit.
  pose proof (wf_bst s W) as Hbst.
  destruct (titleIndex s) as [|nb l r] eqn:Ht.
  - simpl. by rewrite !append_assoc.
  - rewrite (inorderPrint_spec _ _ _ Hbst). cbn [bind].
    inversion Hbst as [|? n ? ? Hn _ _ _ _]; subst.
    destruct (objects (heap s) (inorder (Node nb l r))) as [|b bs] eqn:Hobj.
    + exfalso. simpl in Hobj.
      rewrite objects_app, (objects_cons _ _ _ _ Hn) in Hobj.
      symmetry in Hobj. by apply app_cons_not_nil in Hobj.
    + by rewrite !append_assoc.
Qed.

(** ** Counting in chains and lists *)

Lemma occurrences_absent (p : ptr) (chain : list ptr) :
  p ∉ chain -> occurrences p chain = 0%nat.
Proof.
  unfold occurrences. induction chain as [|q chain IH]; intros Hnot; [done|].
  apply not_elem_of_cons in Hnot as [Hne Hnot].
  rewrite filter_cons_False by congruence. by apply IH.
Qed.

Lemma occurrences_once (p : ptr) (chain : list ptr) :
  NoDup chain -> p ∈ chain -> occurrences p chain = 1%nat.
Proof.
  unfold occurrences. induction 1 as [|q chain Hq Hnd IH]; intros Hin.
  - by apply elem_of_nil in Hin.
  - destruct (decide (q = p)) as [-> | Hne].
    + rewrite filter_cons_True by done. simpl. f_equal.
      by apply occurrences_absent.
    + rewrite filter_cons_False by done.
      apply elem_of_cons in Hin as [-> | Hin]; [done | by apply IH].
Qed.

Lemma has_key_heap (s : State) (key : Z) :
  wf s -> has_key s key <-> key ∈ id <$> heap s.
Proof. intros W. unfold has_key. by rewrite records_heap. Qed.

Lemma has_title_heap (s : State) (ttl : string) :
  wf s -> has_title s ttl <-> ttl ∈ title <$> heap s.
Proof. intros W. unfold has_title. by rewrite records_heap. Qed.

(** The titles of the listing are the titles of the records. *)
Lemma listing_titles (s : State) (ttl : string) :
  wf s -> ttl ∈ title <$> listing s <-> ttl ∈ title <$> heap s.
Proof.
  intros W. rewrite !list_elem_of_fmap. split.
  - intros (b & -> & (q & Hq & Hb)%elem_of_objects).
    exists b. split; [done|]. by eapply list_elem_of_lookup_2.
  - intros (b & -> & (j & Hj)%list_elem_of_lookup).
    destruct (wf_tree_complete s W j b Hj) as (q & c & Hq & Hc & Ht).
    exists c. split; [done|]. apply elem_of_objects. eauto.
Qed.

Lemma listing_strict (s : State) :
  wf s ->
  StronglySorted (fun a b => String.ltb (title a) (title b) = true) (listing s).
Proof. intros W. apply bst_sorted, (wf_bst s W). Qed.

Lemma reachable_loadSampleData (s s' : State) :
  reachable s -> loadSampleData s = Ok s' -> reachable s'.
Proof.
  intros Hreach Hload. unfold loadSampleData in Hload.
  apply bind_Ok in Hload as (s1 & H1 & Hload).
  apply bind_Ok in Hload as (s2 & H2 & Hload).
  apply bind_Ok in Hload as (s3 & H3 & Hload).
  apply bind_Ok in Hload as (s4 & H4 & Hload).
  apply bind_Ok in Hload as (s5 & H5 & [= <-]).
  apply reach_prompt. eauto 12 using reach_addBook.
Qed.

(** ** Lookups, additions and output on consistent states *)

Lemma findByTitle_found (s : State) (ttl : string) :
  wf s -> ttl ∈ title <$> heap s ->
  exists p b, BST.search (heap s) (titleIndex s) ttl = Ok (Some p) /\
    findByTitle s ttl = Ok (Some b) /\ heap s !! p = Some b /\ title b = ttl /\
    forall j c, heap s !! j = Some c -> title c = ttl -> (p <= j)%nat.
Proof.
  intros W Hin.
  destruct (searchRecursive_spec (heap s) (titleIndex s) ttl (wf_bst s W))
    as (res & Hres & Hspec).
  destruct res as [q|].
  - destruct Hspec as (Hq & c & Hc & Ht). exists q, c.
    split; [done|]. split.
    { unfold findByTitle, BST.search. rewrite Hres. simpl.
      by rewrite (deref_Some _ _ _ Hc). }
    split; [done|]. split; [done|]. intros j c' Hj Ht'.
    apply (wf_tree_first s W q c j c'); congruence.
  - exfalso. apply list_elem_of_fmap in Hin as (b & -> & Hb).
    apply list_elem_of_lookup in Hb as [j Hj].
    destruct (wf_tree_complete s W j b Hj) as (q & c & Hq & Hc & Ht).
    by apply (Hspec q c).
Qed.

(** A key that is new and has a bucket is added. *)
Lemma addBook_new (s : State) (key : Z) (ttl aut : string) :
  wf s -> 0 <= HashTable.hashFunction key -> ~ has_key s key ->
  exists s', addBook key ttl aut s = Ok s' /\ wf s' /\
    heap s' = heap s ++ [Book_new key ttl aut] /\
    books s' = books s ++ [length (heap s)] /\
    cout s' = cout s +:+ "Added: " +:+ ttl +:+ endl.
Proof.
  intros W Hpos Hnew. rewrite (has_key_heap s key W) in Hnew.
  destruct (findByKey_absent s key W Hpos Hnew) as [Hsearch _].
  by apply addBook_fresh.
Qed.

Lemma findByKey_total (s : State) (key : Z) :
  wf s -> 0 <= HashTable.hashFunction key ->
  (exists b, b ∈ records s /\ id b = key /\ findByKey s key = Ok (Some b)) \/
  (~ has_key s key /\ findByKey s key = Ok None).
Proof.
  intros W Hpos. rewrite (has_key_heap s key W), (records_heap s W).
  destruct (decide (key ∈ id <$> heap s)) as [Hin | Hnot].
  - left. apply list_elem_of_fmap in Hin as (b & -> & Hb). exists b.
    split; [done|]. split; [done|].
    apply list_elem_of_lookup in Hb as [p Hp].
    apply (findByKey_present s p b W Hp).
  - right. split; [done|]. by apply findByKey_absent.
Qed.

Lemma findByTitle_total (s : State) (ttl : string) :
  wf s ->
  (exists b, b ∈ records s /\ title b = ttl /\ findByTitle s ttl = Ok (Some b)) \/
  (~ has_title s ttl /\ findByTitle s ttl = Ok None).
Proof.
  intros W. rewrite (has_title_heap s ttl W), (records_heap s W).
  destruct (decide (ttl ∈ title <$> heap s)) as [Hin | Hnot].
  - left. destruct (findByTitle_found s ttl W Hin) as (p & b & _ & Hf & Hp & Ht & _).
    exists b. split; [by eapply list_elem_of_lookup_2 | done].
  - right. split; [done|]. by apply findByTitle_absent.
Qed.

Lemma append_grows (a text : string) : text <> "" -> a +:+ text <> a.
Proof.
  intros Hne. induction a as [|x a IH]; [done|].
  change (String x (a +:+ text) <> String x a). congruence.
Qed.

Lemma emit_grows (text : string) (s : State) :
  text <> "" -> cout (emit text s) <> cout s.
Proof. intros Hne. simpl. by apply append_grows. Qed.

(** Every record of the owned collection is found by its key, with the
    fields it was created with; records are created available and stay so. *)
Lemma exact_lookup_added (s : State) (b : Book) :
  reachable s -> b ∈ records s ->
  findByKey s (id b) = Ok (Some b) /\ isAvailable b = true.
Proof.
  intros Hreach Hb. pose proof (reachable_wf s Hreach) as W.
  rewrite (records_heap s W) in Hb. split.
  - apply list_elem_of_lookup in Hb as [p Hp].
    apply (findByKey_present s p b W Hp).
  - pose proof (wf_avail s W) as Hav. rewrite Forall_forall in Hav. auto.
Qed.

(** The owned collection is the sequence of the records the accepted
    [addBook] calls created. *)
Lemma addBook_records (s s' : State) (key : Z) (ttl aut : string) :
  reachable s -> addBook key ttl aut s = Ok s' ->
  (has_key s key /\ records s' = records s) \/
  (~ has_key s key /\ records s' = records s ++ [mkBook key ttl aut true]).
Proof.
  intros Hreach Hadd. pose proof (reachable_wf s Hreach) as W.
  pose proof (addBook_wf s s' key ttl aut W Hadd) as W'.
  destruct (HashTable.search (heap s) (idIndex s) key) as [[p|]|f] eqn:Hs.
  - rewrite (addBook_duplicate _ _ _ _ _ Hs) in Hadd. injection Hadd as <-.
    left. split; [|done].
    destruct (findByKey_total s key W) as [(b & Hb & Hid & _) | (_ & Hf)].
    + by apply search_Ok_bounds in Hs as [? _].
    + unfold has_key. apply list_elem_of_fmap. eauto.
    + unfold findByKey in Hf. rewrite Hs in Hf. simpl in Hf.
      by destruct (deref (heap s) p).
  - destruct (addBook_fresh s key ttl aut W Hs) as (s'' & Hadd' & _ & Hh & _).
    assert (s'' = s') as -> by congruence. right.
    rewrite (records_heap s' W'), (records_heap s W). split; [|done].
    destruct (findByKey_total s key W) as [(b & _ & _ & Hf) | (Hnew & _)].
    + by apply search_Ok_bounds in Hs as [? _].
    + unfold findByKey in Hf. by rewrite Hs in Hf.
    + done.
  - unfold addBook in Hadd. by rewrite Hs in Hadd.
Qed.

(** A key that no record has and that has a bucket is not found. *)
Lemma exact_lookup_never_added (s : State) (key : Z) :
  reachable s -> 0 <= HashTable.hashFunction key -> ~ has_key s key ->
  findByKey s key = Ok None.
Proof.
  intros Hreach Hpos Hnew. pose proof (reachable_wf s Hreach) as W.
  rewrite (has_key_heap s key W) in Hnew. by apply findByKey_absent.
Qed.

(** On the manager as constructed the listing is empty, no title is found,
    and no key that has a bucket is found. *)
Lemma fresh_catalog_queries :
  listing init = [] /\
  (forall ttl, findByTitle init ttl = Ok None) /\
  (forall key, 0 <= HashTable.hashFunction key -> findByKey init key = Ok None).
Proof.
  split; [done|]. split; [done|].
  intros key Hpos. apply findByKey_absent; [apply wf_init | done |].
  simpl. apply not_elem_of_nil.
Qed.

(** The three-record scenario: added as Zed, Abe, Mid, listed as Abe, Mid,
    Zed; key 1002 finds Abe and key 9999 finds nothing. *)
Example three_records :
  exists s1 s2 s3,
    addBook 1001 "Zed" "A" init = Ok s1 /\ addBook 1002 "Abe" "B" s1 = Ok s2 /\
    addBook 1003 "Mid" "C" s2 = Ok s3 /\
    title <$> listing s3 = ["Abe"; "Mid"; "Zed"] /\
    findByKey s3 1002 = Ok (Some (mkBook 1002 "Abe" "B" true)) /\
    findByKey s3 9999 = Ok None.
Proof.
  exists (after (addBook 1001 "Zed" "A" init)).
  exists (after (addBook 1002 "Abe" "B" (after (addBook 1001 "Zed" "A" init)))).
  exists (after (addBook 1003 "Mid" "C"
            (after (addBook 1002 "Abe" "B" (after (addBook 1001 "Zed" "A" init)))))).
  by vm_compute.
Qed.

(** ** The properties of the catalog *)

(** C1. In every state the program reaches, [addBook] with a key that a
    record of the owned collection already has is rejected: it writes the
    duplicate-key error line and changes nothing else.  The store (so no
    new [Book] is created), the owner vector [books], the hash table and
    the tree are the ones before the call, and the number of records is
    the same. *)
Theorem addBook_duplicate_key_rejected (s : State) (key : Z) (ttl aut : string) :
  reachable s -> has_key s key ->
  exists s', addBook key ttl aut s = Ok s' /\
    cout s' = cout s +:+ "Error: Book ID " +:+ show_int key
                     +:+ " already exists." +:+ endl /\
    heap s' = heap s /\ books s' = books s /\
    idIndex s' = idIndex s /\ titleIndex s' = titleIndex s /\
    records s' = records s /\ length (books s') = length (books s).
Proof.
  intros Hreach Hkey. pose proof (reachable_wf s Hreach) as W.
  apply (has_key_heap s key W), list_elem_of_fmap in Hkey as (b & -> & Hb).
  apply list_elem_of_lookup in Hb as [p Hp].
  destruct (findByKey_present s p b W Hp) as [Hsearch _].
  eexists. split; [by eapply addBook_duplicate|]. by repeat split.
Qed.

Lemma addBook_duplicate_key_rejected_witness :
  exists s', addBook 1 "B" "u" one_book = Ok s' /\
    cout s' = cout one_book +:+ "Error: Book ID " +:+ show_int 1
                            +:+ " already exists." +:+ endl /\
    heap s' = heap one_book /\ books s' = books one_book /\
    idIndex s' = idIndex one_book /\ titleIndex s' = titleIndex one_book /\
    records s' = records one_book /\
    length (books s') = length (books one_book).
Proof.
  apply (addBook_duplicate_key_rejected one_book 1 "B" "u").
  - apply (reach_addBook 1 "A" "x" init one_book reach_init). reflexivity.
  - vm_compute. left.
Defined.

(** Shadowing where the table can hold both keys.  From any state the
    program reaches, two [addBook] calls with distinct keys that no record
    has yet and that have a bucket, and with one title: both calls add their
    record, each key finds its own record, the title finds a record other
    than the second call's, namely the earliest record with that title (the
    first call's when no earlier record has the title), and the listing has
    exactly one entry with that title. *)
Lemma duplicate_title_shadowing
    (s : State) (k1 k2 : Z) (ttl a1 a2 : string) :
  reachable s -> k1 <> k2 -> ~ has_key s k1 -> ~ has_key s k2 ->
  0 <= HashTable.hashFunction k1 -> 0 <= HashTable.hashFunction k2 ->
  exists s1 s2,
    addBook k1 ttl a1 s = Ok s1 /\ addBook k2 ttl a2 s1 = Ok s2 /\
    cout s1 = cout s +:+ "Added: " +:+ ttl +:+ endl /\
    cout s2 = cout s1 +:+ "Added: " +:+ ttl +:+ endl /\
    records s2 = records s ++ [mkBook k1 ttl a1 true; mkBook k2 ttl a2 true] /\
    findByKey s2 k1 = Ok (Some (mkBook k1 ttl a1 true)) /\
    findByKey s2 k2 = Ok (Some (mkBook k2 ttl a2 true)) /\
    (exists i b, findByTitle s2 ttl = Ok (Some b) /\
       records s2 !! i = Some b /\ title b = ttl /\
       (forall j c, records s2 !! j = Some c -> title c = ttl -> (i <= j)%nat) /\
       id b <> k2 /\
       (~ has_title s ttl -> b = mkBook k1 ttl a1 true)) /\
    length (filter (fun b => title b = ttl) (listing s2)) = 1%nat.
Proof.
  intros Hreach Hne Hk1 Hk2 Hpos1 Hpos2.
  pose proof (reachable_wf s Hreach) as W.
  destruct (addBook_new s k1 ttl a1 W Hpos1 Hk1) as (s1 & Hadd1 & W1 & Hh1 & _ & Hc1).
  assert (~ has_key s1 k2) as Hk2'.
  { rewrite (has_key_heap s1 k2 W1), Hh1, fmap_app, elem_of_app.
    rewrite <- (has_key_heap s k2 W). simpl.
    intros [Hin | Hin%list_elem_of_singleton]; [done | congruence]. }
  destruct (addBook_new s1 k2 ttl a2 W1 Hpos2 Hk2') as (s2 & Hadd2 & W2 & Hh2 & _ & Hc2).
  exists s1, s2. split; [done|]. split; [done|]. split; [done|]. split; [done|].
  set (b1 := mkBook k1 ttl a1 true). set (b2 := mkBook k2 ttl a2 true).
  assert (heap s2 = heap s ++ [b1; b2]) as Hh.
  { rewrite Hh2, Hh1, <- app_assoc. done. }
  rewrite !(records_heap s2 W2), (records_heap s W).
  split; [done|].
  assert (heap s2 !! length (heap s) = Some b1) as Hb1.
  { rewrite Hh. by apply list_lookup_middle. }
  assert (heap s2 !! S (length (heap s)) = Some b2) as Hb2.
  { rewrite Hh. rewrite (lookup_app_r _ _ (S (length (heap s)))) by lia.
    by replace (S (length (heap s)) - length (heap s))%nat with 1%nat by lia. }
  split; [apply (findByKey_present s2 _ b1 W2 Hb1)|].
  split; [apply (findByKey_present s2 _ b2 W2 Hb2)|].
  assert (ttl ∈ title <$> heap s2) as Hin.
  { apply list_elem_of_fmap. exists b1. split; [done|].
    by eapply list_elem_of_lookup_2. }
  split.
  - destruct (findByTitle_found s2 ttl W2 Hin) as (p & b & _ & Hfind & Hp & Ht & Hmin).
    exists p, b. split; [done|]. split; [done|]. split; [done|]. split; [done|].
    pose proof (Hmin _ b1 Hb1 eq_refl) as Hle.
    split.
    + intros Hid.
      assert (p = S (length (heap s))); [|lia].
      eapply (NoDup_lookup (id <$> heap s2)); [apply (wf_keys s2 W2) | |].
      * rewrite list_lookup_fmap, Hp. simpl. by rewrite Hid.
      * by rewrite list_lookup_fmap, Hb2.
    + intros Hfresh. rewrite (has_title_heap s ttl W) in Hfresh.
      destruct (decide (p = length (heap s))) as [-> | Hlt]; [congruence|].
      exfalso. apply Hfresh. apply list_elem_of_fmap. exists b. split; [done|].
      apply (list_elem_of_lookup_2 _ p). rewrite Hh in Hp.
      rewrite lookup_app_l in Hp by lia. done.
  - apply titles_once.
    + by apply sorted_titles_NoDup, listing_strict.
    + by apply listing_titles.
Qed.

Lemma duplicate_title_shadowing_witness :
  exists s1 s2,
    addBook 1 "A" "x" init = Ok s1 /\ addBook 2 "A" "y" s1 = Ok s2 /\
    cout s1 = cout init +:+ "Added: " +:+ "A" +:+ endl /\
    cout s2 = cout s1 +:+ "Added: " +:+ "A" +:+ endl /\
    records s2 = records init ++ [mkBook 1 "A" "x" true; mkBook 2 "A" "y" true] /\
    findByKey s2 1 = Ok (Some (mkBook 1 "A" "x" true)) /\
    findByKey s2 2 = Ok (Some (mkBook 2 "A" "y" true)) /\
    (exists i b, findByTitle s2 "A" = Ok (Some b) /\
       records s2 !! i = Some b /\ title b = "A" /\
       (forall j c, records s2 !! j = Some c -> title c = "A" -> (i <= j)%nat) /\
       id b <> 2 /\
       (~ has_title init "A" -> b = mkBook 1 "A" "x" true)) /\
    length (filter (fun b => title b = "A") (listing s2)) = 1%nat.
Proof.
  apply (duplicate_title_shadowing init 1 2 "A" "x" "y").
  - apply reach_init.
  - lia.
  - vm_compute. intros H. inversion H.
  - vm_compute. intros H. inversion H.
  - vm_compute. discriminate.
  - vm_compute. discriminate.
Defined.

(** C2 at keys without a bucket.  The two calls [addBook(-1, "A", "x")]
    and [addBook(-2, "A", "y")] have distinct keys, never used before, and
    one title, and neither succeeds: the bucket numbers are -1 and -2, and
    the duplicate check of [addBook] reads [table[-1]], then [table[-2]],
    outside the bucket array.  The second call fails in the same way after
    a first call that succeeded. *)
Theorem shadowing_negative_keys_fault :
  -1 <> -2 /\
  ~ has_key init (-1) /\ ~ has_key init (-2) /\
  HashTable.hashFunction (-1) = -1 /\ HashTable.hashFunction (-2) = -2 /\
  addBook (-1) "A" "x" init = Fault (OutOfBounds (-1)) /\
  addBook (-2) "A" "y" init = Fault (OutOfBounds (-2)) /\
  exists s1, addBook 1 "A" "x" init = Ok s1 /\
    addBook (-2) "A" "y" s1 = Fault (OutOfBounds (-2)).
Proof.
  split; [lia|].
  split; [vm_compute; apply not_elem_of_nil|].
  split; [vm_compute; apply not_elem_of_nil|].
  split; [done|]. split; [done|]. split; [done|]. split; [done|].
  exists one_book. by vm_compute.
Qed.

(** C3. In every state the program reaches, [showAllBooks] prints the
    records of the listing between its two rules; the listing, which is the
    in-order traversal of the tree, consists of records of the owned
    collection, is in non-decreasing title order, and has as many entries
    as there are distinct titles among the records of the owned collection
    (the successfully added ones): its titles are those distinct titles. *)
Theorem listing_sorted_by_title (s : State) :
  reachable s ->
  showAllBooks s =
    Ok (emit (endl +:+ "=== Library Catalog (Sorted by Title) ===" +:+ endl
              +:+ (match listing s with
                   | [] => "No books in the library." +:+ endl
                   | b :: bs => lines (b :: bs)
                   end)
              +:+ "=========================================" +:+ endl) s) /\
  (forall out, BST.inorderPrint (heap s) (titleIndex s) out
               = Ok (out +:+ lines (listing s))) /\
  listing s ⊆ records s /\
  StronglySorted (fun a b => String.leb (title a) (title b) = true) (listing s) /\
  title <$> listing s ≡ₚ remove_dups (title <$> records s) /\
  length (listing s) = length (remove_dups (title <$> records s)).
Proof.
  intros Hreach. pose proof (reachable_wf s Hreach) as W.
  assert (title <$> listing s ≡ₚ remove_dups (title <$> records s)) as Hperm.
  { apply NoDup_Permutation.
    - by apply sorted_titles_NoDup, listing_strict.
    - apply NoDup_remove_dups.
    - intros ttl. by rewrite elem_of_remove_dups, records_heap, listing_titles. }
  split; [by apply showAllBooks_listing|].
  split; [intros out; apply inorderPrint_spec, (wf_bst s W)|].
  split; [|split; [|split]].
  - intros b (q & Hq & Hb)%elem_of_objects. rewrite (records_heap s W).
    by eapply list_elem_of_lookup_2.
  - eapply sorted_weaken; [|by apply listing_strict].
    intros a b. apply ltb_leb.
  - done.
  - by rewrite <- (length_fmap title (listing s)), Hperm.
Qed.

Lemma listing_sorted_by_title_witness :
  showAllBooks sample =
    Ok (emit (endl +:+ "=== Library Catalog (Sorted by Title) ===" +:+ endl
              +:+ (match listing sample with
                   | [] => "No books in the library." +:+ endl
                   | b :: bs => lines (b :: bs)
                   end)
              +:+ "=========================================" +:+ endl) sample) /\
  (forall out, BST.inorderPrint (heap sample) (titleIndex sample) out
               = Ok (out +:+ lines (listing sample))) /\
  listing sample ⊆ records sample /\
  StronglySorted (fun a b => String.leb (title a) (title b) = true)
                 (listing sample) /\
  title <$> listing sample ≡ₚ remove_dups (title <$> records sample) /\
  length (listing sample) = length (remove_dups (title <$> records sample)).
Proof.
  apply (listing_sorted_by_title sample).
  apply (reachable_loadSampleData init sample reach_init). reflexivity.
Defined.

(** C4 at the keys without a bucket.  A key with a negative bucket number
    (a negative key that is no multiple of 101) can never be added, since
    [addBook] stops in the out-of-bounds access of its duplicate check; and
    the lookup of such a key does not return absent: [idIndex.search] reads
    outside the bucket array. *)
Theorem findByKey_negative_key_faults (s : State) (key : Z) :
  HashTable.hashFunction key < 0 ->
  (forall ttl aut, addBook key ttl aut s
                   = Fault (OutOfBounds (HashTable.hashFunction key))) /\
  findByKey s key = Fault (OutOfBounds (HashTable.hashFunction key)) /\
  searchById key s = Fault (OutOfBounds (HashTable.hashFunction key)).
Proof.
  intros Hneg. split; [|split].
  - intros ttl aut. unfold addBook. by rewrite search_negative.
  - by apply findByKey_negative.
  - rewrite searchById_findByKey. by rewrite findByKey_negative.
Qed.

Lemma findByKey_negative_key_faults_witness :
  (forall ttl aut, addBook (-1) ttl aut one_book
                   = Fault (OutOfBounds (HashTable.hashFunction (-1)))) /\
  findByKey one_book (-1) = Fault (OutOfBounds (HashTable.hashFunction (-1))) /\
  searchById (-1) one_book = Fault (OutOfBounds (HashTable.hashFunction (-1))).
Proof.
  apply (findByKey_negative_key_faults one_book (-1)). reflexivity.
Defined.

(** C5. In every state the program reaches, each address in the owner
    vector [books] points to a live record, the bucket number
    [hashFunction (id b)] of that record is [id b mod 101], the address
    occurs exactly once in the chain of that bucket, and in no other of the
    101 chains. *)
Theorem bucket_invariant (s : State) (p : ptr) :
  reachable s -> p ∈ books s ->
  length (idIndex s) = 101%nat /\
  exists b, heap s !! p = Some b /\
    HashTable.hashFunction (id b) = id b mod 101 /\
    forall i : nat, (i < 101)%nat ->
      exists chain, idIndex s !! i = Some chain /\
        occurrences p chain =
          if decide (Z.of_nat i = id b mod 101) then 1%nat else 0%nat.
Proof.
  intros Hreach Hp. pose proof (reachable_wf s Hreach) as W.
  split; [apply (wf_table s W)|].
  rewrite (wf_books s W) in Hp. apply elem_of_seq in Hp.
  destruct (lookup_lt_is_Some_2 (heap s) p) as [b Hb]; [lia|].
  exists b. split; [done|].
  destruct (wf_chain_complete s W p b Hb) as (Hpos & chain0 & Hc0 & Hin0).
  assert (HashTable.hashFunction (id b) = id b mod 101) as Hmod.
  { revert Hpos. unfold HashTable.hashFunction, HashTable.TABLE_SIZE.
    Z.to_euclidean_division_equations. lia. }
  split; [done|]. intros i Hi.
  destruct (lookup_lt_is_Some_2 (idIndex s) i) as [chain Hchain].
  { rewrite (wf_table s W). unfold HashTable.TABLE_SIZE. lia. }
  exists chain. split; [done|].
  case_decide as Hcase.
  - rewrite <- Hmod in Hcase. rewrite <- Hcase, Nat2Z.id in Hc0.
    assert (chain0 = chain) as -> by congruence.
    apply occurrences_once; [by apply (wf_chain_nodup s W i) | done].
  - apply occurrences_absent. intros Hin.
    destruct (wf_chain_sound s W i chain p Hchain Hin) as (b' & Hb' & Hh).
    assert (b' = b) as -> by congruence. congruence.
Qed.

Lemma bucket_invariant_witness :
  length (idIndex sample) = 101%nat /\
  exists b, heap sample !! 1%nat = Some b /\
    HashTable.hashFunction (id b) = id b mod 101 /\
    forall i : nat, (i < 101)%nat ->
      exists chain, idIndex sample !! i = Some chain /\
        occurrences 1%nat chain =
          if decide (Z.of_nat i = id b mod 101) then 1%nat else 0%nat.
Proof.
  apply (bucket_invariant sample 1%nat).
  - apply (reachable_loadSampleData init sample reach_init). reflexivity.
  - vm_compute. right. left.
Defined.

(** C6. In every state the program reaches, a record of the owned
    collection that no earlier record shares its title with is found by its
    key and by its title, through the same address: both lookups return the
    same record, so the same key, title, author and availability. *)
Theorem round_trip (s : State) (i : nat) (b : Book) :
  reachable s -> records s !! i = Some b ->
  (forall j c, (j < i)%nat -> records s !! j = Some c -> title c <> title b) ->
  findByKey s (id b) = Ok (Some b) /\
  findByTitle s (title b) = Ok (Some b) /\
  exists p, books s !! i = Some p /\ heap s !! p = Some b /\
    HashTable.search (heap s) (idIndex s) (id b) = Ok (Some p) /\
    BST.search (heap s) (titleIndex s) (title b) = Ok (Some p).
Proof.
  intros Hreach Hb Hfirst. pose proof (reachable_wf s Hreach) as W.
  rewrite (records_heap s W) in Hb, Hfirst.
  destruct (findByKey_present s i b W Hb) as [Hks Hk].
  destruct (findByTitle_first s i b W Hb Hfirst) as [Hts Ht].
  split; [done|]. split; [done|]. exists i. split; [|done].
  rewrite (wf_books s W). apply lookup_seq_lt. by eapply lookup_lt_Some.
Qed.

Lemma round_trip_witness :
  findByKey sample 2042 = Ok (Some (mkBook 2042 "Clean Code" "Robert C. Martin" true)) /\
  findByTitle sample "Clean Code"
    = Ok (Some (mkBook 2042 "Clean Code" "Robert C. Martin" true)) /\
  exists p, books sample !! 1%nat = Some p /\
    heap sample !! p = Some (mkBook 2042 "Clean Code" "Robert C. Martin" true) /\
    HashTable.search (heap sample) (idIndex sample) 2042 = Ok (Some p) /\
    BST.search (heap sample) (titleIndex sample) "Clean Code" = Ok (Some p).
Proof.
  apply (round_trip sample 1%nat (mkBook 2042 "Clean Code" "Robert C. Martin" true)).
  - apply (reachable_loadSampleData init sample reach_init). reflexivity.
  - reflexivity.
  - intros j c Hj. destruct j as [|j]; [|lia].
    intros Hc. vm_compute in Hc. injection Hc as <-. vm_compute. discriminate.
Defined.

(** C7 at a key without a bucket.  On the manager as constructed, the
    lookup of the key -1 does not return absent: the bucket number is -1
    and [table[-1]] is outside the bucket array. *)
Theorem fresh_catalog_negative_key :
  HashTable.hashFunction (-1) = -1 /\
  HashTable.search (heap init) (idIndex init) (-1) = Fault (OutOfBounds (-1)) /\
  findByKey init (-1) = Fault (OutOfBounds (-1)) /\
  searchById (-1) init = Fault (OutOfBounds (-1)).
Proof. by vm_compute. Qed.

(** The claim C8 fails on every operation: each of them writes to
    [std::cout] itself. *)
Lemma core_operations_perform_output :
  (exists s', addBook 1 "A" "x" init = Ok s' /\
     cout init = "" /\ cout s' = "Added: A" +:+ endl) /\
  (exists s', addBook 1 "B" "u" one_book = Ok s' /\
     cout s' = cout one_book +:+ "Error: Book ID 1 already exists." +:+ endl /\
     cout s' <> cout one_book) /\
  (exists s', searchById 7 init = Ok s' /\
     cout s' = "Book not found (ID: 7)" +:+ endl) /\
  (exists s', searchByTitle "A" init = Ok s' /\
     cout s' = "Book not found (Title: A)" +:+ endl) /\
  (exists s', showAllBooks init = Ok s' /\
     cout s' = endl +:+ "=== Library Catalog (Sorted by Title) ===" +:+ endl
               +:+ "No books in the library." +:+ endl
               +:+ "=========================================" +:+ endl).
Proof.
  split; [exists (after (addBook 1 "A" "x" init)); by vm_compute|].
  split; [exists (after (addBook 1 "B" "u" one_book)); by vm_compute|].
  split; [exists (after (searchById 7 init)); by vm_compute|].
  split; [exists (after (searchByTitle "A" init)); by vm_compute|].
  exists (after (showAllBooks init)); by vm_compute.
Qed.

(** C8 as the code has it.  In every state the program reaches, each of the
    four operations that completes has written its own message to
    [std::cout]: [addBook] the duplicate-key error line when a record has
    the key and the line [Added: <title>] otherwise; [searchById] and
    [searchByTitle] the found banner with the catalog line of the record
    they find, or their not-found line; [showAllBooks] its two rules around
    the catalog lines of the listing, or around the no-books line. *)
Theorem operations_write_messages (s : State) :
  reachable s ->
  (forall key ttl aut s', addBook key ttl aut s = Ok s' ->
     cout s' <> cout s /\
     ((has_key s key /\
       cout s' = cout s +:+ "Error: Book ID " +:+ show_int key
                        +:+ " already exists." +:+ endl) \/
      (~ has_key s key /\
       cout s' = cout s +:+ "Added: " +:+ ttl +:+ endl))) /\
  (forall key s', searchById key s = Ok s' ->
     cout s' <> cout s /\
     ((exists b, findByKey s key = Ok (Some b) /\
         cout s' = cout s +:+ endl +:+ "[Found by ID]" +:+ endl
                          +:+ printDetails b) \/
      (findByKey s key = Ok None /\
       cout s' = cout s +:+ "Book not found (ID: " +:+ show_int key
                        +:+ ")" +:+ endl))) /\
  (forall ttl s', searchByTitle ttl s = Ok s' ->
     cout s' <> cout s /\
     ((exists b, findByTitle s ttl = Ok (Some b) /\
         cout s' = cout s +:+ endl +:+ "[Found by Title]" +:+ endl
                          +:+ printDetails b) \/
      (findByTitle s ttl = Ok None /\
       cout s' = cout s +:+ "Book not found (Title: " +:+ ttl
                        +:+ ")" +:+ endl))) /\
  (forall s', showAllBooks s = Ok s' ->
     cout s' <> cout s /\
     cout s' = cout s +:+ endl
                 +:+ "=== Library Catalog (Sorted by Title) ===" +:+ endl
                 +:+ (match listing s with
                      | [] => "No books in the library." +:+ endl
                      | b :: bs => lines (b :: bs)
                      end)
                 +:+ "=========================================" +:+ endl).
Proof.
  intros Hreach. pose proof (reachable_wf s Hreach) as W.
  split; [|split; [|split]].
  - intros key ttl aut s' Hadd.
    destruct (HashTable.search (heap s) (idIndex s) key) as [[p|]|f] eqn:Hs.
    + rewrite (addBook_duplicate _ _ _ _ _ Hs) in Hadd. injection Hadd as <-.
      split; [by apply emit_grows|]. left. split; [|done].
      destruct (findByKey_total s key W) as [(b & Hb & Hid & _) | (_ & Hf)].
      * by apply search_Ok_bounds in Hs as [? _].
      * unfold has_key. apply list_elem_of_fmap. eauto.
      * unfold findByKey in Hf. rewrite Hs in Hf. simpl in Hf.
        by destruct (deref (heap s) p).
    + destruct (addBook_fresh s key ttl aut W Hs) as (s'' & Hadd' & _ & _ & _ & Hc).
      assert (s'' = s') as -> by congruence.
      split; [rewrite Hc; by apply append_grows|]. right. split; [|done].
      destruct (findByKey_total s key W) as [(b & _ & _ & Hf) | (Hnew & _)].
      * by apply search_Ok_bounds in Hs as [? _].
      * unfold findByKey in Hf. by rewrite Hs in Hf.
      * done.
    + unfold addBook in Hadd. by rewrite Hs in Hadd.
  - intros key s'. rewrite searchById_findByKey.
    intros ([b|] & Hf & [= <-])%bind_Ok.
    + split; [by apply emit_grows|]. left. by exists b.
    + split; [by apply emit_grows|]. by right.
  - intros ttl s'. rewrite searchByTitle_findByTitle.
    intros ([b|] & Hf & [= <-])%bind_Ok.
    + split; [by apply emit_grows|]. left. by exists b.
    + split; [by apply emit_grows|]. by right.
  - intros s'. rewrite (showAllBooks_listing s W). intros [= <-].
    split; [by apply emit_grows | done].
Qed.

Lemma operations_write_messages_witness :
  (forall s', addBook 1 "B" "u" one_book = Ok s' ->
     cout s' <> cout one_book /\
     ((has_key one_book 1 /\
       cout s' = cout one_book +:+ "Error: Book ID " +:+ show_int 1
                        +:+ " already exists." +:+ endl) \/
      (~ has_key one_book 1 /\
       cout s' = cout one_book +:+ "Added: " +:+ "B" +:+ endl))) /\
  (forall s', searchById 1 one_book = Ok s' ->
     cout s' <> cout one_book /\
     ((exists b, findByKey one_book 1 = Ok (Some b) /\
         cout s' = cout one_book +:+ endl +:+ "[Found by ID]" +:+ endl
                          +:+ printDetails b) \/
      (findByKey one_book 1 = Ok None /\
       cout s' = cout one_book +:+ "Book not found (ID: " +:+ show_int 1
                        +:+ ")" +:+ endl))) /\
  (forall s', searchByTitle "Z" one_book = Ok s' ->
     cout s' <> cout one_book /\
     ((exists b, findByTitle one_book "Z" = Ok (Some b) /\
         cout s' = cout one_book +:+ endl +:+ "[Found by Title]" +:+ endl
                          +:+ printDetails b) \/
      (findByTitle one_book "Z" = Ok None /\
       cout s' = cout one_book +:+ "Book not found (Title: " +:+ "Z"
                        +:+ ")" +:+ endl))) /\
  (forall s', showAllBooks one_book = Ok s' ->
     cout s' <> cout one_book /\
     cout s' = cout one_book +:+ endl
                 +:+ "=== Library Catalog (Sorted by Title) ===" +:+ endl
                 +:+ (match listing one_book with
                      | [] => "No books in the library." +:+ endl
                      | b :: bs => lines (b :: bs)
                      end)
                 +:+ "=========================================" +:+ endl).
Proof.
  destruct (operations_write_messages one_book) as (Hadd & Hid & Httl & Hall).
  { apply (reach_addBook 1 "A" "x" init one_book reach_init). reflexivity. }
  split; [exact (Hadd 1 "B" "u")|].
  split; [exact (Hid 1)|].
  split; [exact (Httl "Z") | exact Hall].
Defined.

(** The claim C9 fails at the negative multiples of the table size: the
    key -101 is negative, its bucket number is 0, the access is in bounds,
    and the record is stored and found. *)
Lemma negative_key_with_a_bucket :
  -101 < 0 /\ HashTable.hashFunction (-101) = 0 /\
  HashTable.at_index HashTable.empty (HashTable.hashFunction (-101)) = Ok [] /\
  findByKey init (-101) = Ok None /\
  exists s', addBook (-101) "A" "x" init = Ok s' /\
    findByKey s' (-101) = Ok (Some (mkBook (-101) "A" "x" true)).
Proof.
  split; [lia|]. split; [done|]. split; [done|]. split; [done|].
  exists (after (addBook (-101) "A" "x" init)). by vm_compute.
Qed.

(** C9 as the code has it.  For a table of 101 chains: a key [>= 0] has the
    bucket number [key mod 101] in [0, 101) and its chain is accessed in
    bounds; a negative key that is no multiple of 101 has a negative bucket
    number in (-101, 0), and the bucket access, so [search] for the key and
    [insert] of a record with the key, is out of bounds; a negative
    multiple of 101 has the bucket number 0, which is in bounds.  The
    access is in bounds exactly when [key >= 0] or 101 divides [key]. *)
Theorem hash_index_bounds (table : HashTable.t) (key : Z) :
  length table = 101%nat ->
  (0 <= key ->
     HashTable.hashFunction key = key mod 101 /\
     0 <= HashTable.hashFunction key < 101 /\
     exists chain, HashTable.at_index table (HashTable.hashFunction key) = Ok chain) /\
  (key < 0 -> key mod 101 <> 0 ->
     -101 < HashTable.hashFunction key < 0 /\
     HashTable.at_index table (HashTable.hashFunction key)
       = Fault (OutOfBounds (HashTable.hashFunction key)) /\
     (forall h, HashTable.search h table key
                = Fault (OutOfBounds (HashTable.hashFunction key))) /\
     (forall h book b, h !! book = Some b -> id b = key ->
        HashTable.insert h table book
          = Fault (OutOfBounds (HashTable.hashFunction key)))) /\
  (key < 0 -> key mod 101 = 0 ->
     HashTable.hashFunction key = 0 /\
     exists chain, HashTable.at_index table (HashTable.hashFunction key) = Ok chain) /\
  ((exists chain, HashTable.at_index table (HashTable.hashFunction key) = Ok chain)
   <-> (0 <= key \/ key mod 101 = 0)).
Proof.
  intros Hlen.
  assert (0 <= HashTable.hashFunction key ->
          exists chain, HashTable.at_index table (HashTable.hashFunction key) = Ok chain)
    as Hin.
  { intros Hpos. apply at_index_total; [done|].
    pose proof (hashFunction_range key). lia. }
  assert (0 <= key -> HashTable.hashFunction key = key mod 101 /\
                      0 <= HashTable.hashFunction key < 101) as Hnonneg.
  { unfold HashTable.hashFunction, HashTable.TABLE_SIZE.
    Z.to_euclidean_division_equations. lia. }
  assert (key < 0 -> key mod 101 <> 0 -> -101 < HashTable.hashFunction key < 0)
    as Hneg.
  { unfold HashTable.hashFunction, HashTable.TABLE_SIZE.
    Z.to_euclidean_division_equations. lia. }
  assert (key < 0 -> key mod 101 = 0 -> HashTable.hashFunction key = 0) as Hzero.
  { unfold HashTable.hashFunction, HashTable.TABLE_SIZE.
    Z.to_euclidean_division_equations. lia. }
  split; [|split; [|split]].
  - intros Hkey. destruct (Hnonneg Hkey) as [Hmod Hrange].
    split; [done|]. split; [done|]. apply Hin. lia.
  - intros Hkey Hmod. pose proof (Hneg Hkey Hmod) as Hrange.
    split; [done|]. split; [apply at_index_negative; lia|].
    split; [intros h; apply search_negative; lia|].
    intros h book b Hb Hid. unfold HashTable.insert.
    rewrite (deref_Some _ _ _ Hb). simpl. rewrite Hid.
    rewrite at_index_negative; [done | lia].
  - intros Hkey Hmod. split; [by apply Hzero|]. apply Hin.
    rewrite Hzero; [lia | done | done].
  - split.
    + intros [chain Hchain]. apply at_index_Ok in Hchain as [Hrange _].
      destruct (Z.le_gt_cases 0 key) as [|Hkey]; [by left|]. right.
      destruct (decide (key mod 101 = 0)) as [|Hmod]; [done|].
      specialize (Hneg Hkey Hmod). lia.
    + intros [Hkey | Hmod].
      * apply Hin. destruct (Hnonneg Hkey). lia.
      * apply Hin. destruct (Z.le_gt_cases 0 key) as [Hkey|Hkey].
        -- destruct (Hnonneg Hkey). lia.
        -- rewrite Hzero; [lia | lia | done].
Qed.

Lemma hash_index_bounds_witness :
  (HashTable.hashFunction 7 = 7 mod 101 /\
   0 <= HashTable.hashFunction 7 < 101 /\
   exists chain,
     HashTable.at_index HashTable.empty (HashTable.hashFunction 7) = Ok chain) /\
  (-101 < HashTable.hashFunction (-5) < 0 /\
   HashTable.at_index HashTable.empty (HashTable.hashFunction (-5))
     = Fault (OutOfBounds (HashTable.hashFunction (-5))) /\
   (forall h, HashTable.search h HashTable.empty (-5)
              = Fault (OutOfBounds (HashTable.hashFunction (-5)))) /\
   (forall h book b, h !! book = Some b -> id b = -5 ->
      HashTable.insert h HashTable.empty book
        = Fault (OutOfBounds (HashTable.hashFunction (-5))))) /\
  (HashTable.hashFunction (-202) = 0 /\
   exists chain,
     HashTable.at_index HashTable.empty (HashTable.hashFunction (-202)) = Ok chain).
Proof.
  destruct (hash_index_bounds HashTable.empty 7) as (Hpos & _); [reflexivity|].
  destruct (hash_index_bounds HashTable.empty (-5)) as (_ & Hneg & _);
    [reflexivity|].
  destruct (hash_index_bounds HashTable.empty (-202)) as (_ & _ & Hzero & _);
    [reflexivity|].
  split; [apply Hpos; lia|].
  split; [apply Hneg; [lia | vm_compute; discriminate]|].
  apply Hzero; [lia | reflexivity].
Defined.

(** C10. The three queries are read-only.  From any state whatever and on
    any input, a run of [searchById], [searchByTitle] or [showAllBooks] that
    completes ends in a state whose store (so every field of every record,
    the availability flag too), owner vector, hash table and tree are the
    ones it started with: only text is written.  And in every state the
    program reaches the runs do complete: always for [searchByTitle] and
    [showAllBooks], and for [searchById] whenever the key has a bucket. *)
Theorem queries_read_only (s : State) :
  (forall key s', searchById key s = Ok s' -> same_catalog s s') /\
  (forall ttl s', searchByTitle ttl s = Ok s' -> same_catalog s s') /\
  (forall s', showAllBooks s = Ok s' -> same_catalog s s') /\
  (reachable s ->
     (forall key, 0 <= HashTable.hashFunction key ->
        exists s', searchById key s = Ok s') /\
     (forall ttl, exists s', searchByTitle ttl s = Ok s') /\
     (exists s', showAllBooks s = Ok s')).
Proof.
  split; [intros key s'; apply searchById_same|].
  split; [intros ttl s'; apply searchByTitle_same|].
  split; [intros s'; apply showAllBooks_same|].
  intros Hreach. pose proof (reachable_wf s Hreach) as W.
  split; [|split].
  - intros key Hpos. rewrite searchById_findByKey.
    destruct (findByKey_total s key W Hpos) as [(b & _ & _ & ->) | (_ & ->)];
      simpl; eauto.
  - intros ttl. rewrite searchByTitle_findByTitle.
    destruct (findByTitle_total s ttl W) as [(b & _ & _ & ->) | (_ & ->)];
      simpl; eauto.
  - rewrite (showAllBooks_listing s W). eauto.
Qed.

Lemma queries_read_only_witness :
  (exists s', searchById 2042 sample = Ok s' /\ same_catalog sample s') /\
  (exists s', searchByTitle "Clean Code" sample = Ok s' /\ same_catalog sample s') /\
  (exists s', showAllBooks sample = Ok s' /\ same_catalog sample s').
Proof.
  destruct (queries_read_only sample) as (Hid & Httl & Hall & Hrun).
  destruct Hrun as (Rid & Rttl & Rall).
  { apply (reachable_loadSampleData init sample reach_init). reflexivity. }
  destruct (Rid 2042) as [s1 H1]; [vm_compute; discriminate|].
  destruct (Rttl "Clean Code") as [s2 H2].
  destruct Rall as [s3 H3].
  split; [exists s1; split; [exact H1 | exact (Hid 2042 s1 H1)]|].
  split; [exists s2; split; [exact H2 | exact (Httl "Clean Code" s2 H2)]|].
  exists s3; split; [exact H3 | exact (Hall s3 H3)].
Defined.

(** ** Further properties: additions, lookups and runs *)

Lemma findByKey_Some_inv (s : State) (key : Z) (b : Book) :
  wf s -> findByKey s key = Ok (Some b) -> b ∈ records s /\ id b = key.
Proof.
  intros W Hf.
  assert (0 <= HashTable.hashFunction key) as Hpos.
  { unfold findByKey in Hf. apply bind_Ok in Hf as (res & Hs & _).
    by apply search_Ok_bounds in Hs as [? _]. }
  destruct (findByKey_total s key W Hpos) as [(c & Hc & Hid & Hf') | (_ & Hf')];
    rewrite Hf' in Hf; [|done].
  injection Hf as <-. done.
Qed.

Lemma findByTitle_Some_inv (s : State) (ttl : string) (b : Book) :
  wf s -> findByTitle s ttl = Ok (Some b) -> b ∈ records s /\ title b = ttl.
Proof.
  intros W Hf.
  destruct (findByTitle_total s ttl W) as [(c & Hc & Ht & Hf') | (_ & Hf')];
    rewrite Hf' in Hf; [|done].
  injection Hf as <-. done.
Qed.

(** On a consistent manager [addBook] with a key that has a bucket runs to
    completion, and the owned collection it leaves starts with the one it
    found. *)
Lemma addBook_total (s : State) (key : Z) (ttl aut : string) :
  wf s -> 0 <= HashTable.hashFunction key ->
  exists s', addBook key ttl aut s = Ok s' /\ wf s' /\
    heap s `prefix_of` heap s' /\ key ∈ id <$> heap s' /\
    (key ∈ id <$> heap s -> same_catalog s s').
Proof.
  intros W Hpos.
  destruct (decide (key ∈ id <$> heap s)) as [Hin | Hnew].
  - pose proof Hin as Hin'.
    apply list_elem_of_fmap in Hin' as (b & -> & Hb).
    apply list_elem_of_lookup in Hb as [p Hp].
    destruct (findByKey_present s p b W Hp) as [Hsearch _].
    eexists. split; [by eapply addBook_duplicate|].
    split; [by apply wf_emit|]. split; [done|]. split; [done|].
    intros _. apply same_catalog_emit.
  - destruct (findByKey_absent s key W Hpos Hnew) as [Hsearch _].
    destruct (addBook_fresh s key ttl aut W Hsearch) as (s' & Hadd & W' & Hh & _).
    exists s'. split; [done|]. split; [done|]. rewrite Hh.
    split; [by apply prefix_app_r|]. split; [|done].
    rewrite fmap_app, elem_of_app. right. simpl. apply list_elem_of_singleton. done.
Qed.

Lemma step_grows (s s' : State) :
  wf s -> same_catalog s s' \/ (exists key ttl aut, addBook key ttl aut s = Ok s') ->
  wf s' /\ heap s `prefix_of` heap s'.
Proof.
  intros W [Hsame | (key & ttl & aut & Hadd)].
  - split; [by eapply wf_same|]. destruct Hsame as (-> & _). done.
  - split; [by eapply addBook_wf|].
    assert (0 <= HashTable.hashFunction key) as Hpos.
    { unfold addBook in Hadd. apply bind_Ok in Hadd as (res & Hs & _).
      by apply search_Ok_bounds in Hs as [? _]. }
    destruct (addBook_total s key ttl aut W Hpos) as (s'' & Hadd' & _ & Hpre & _).
    congruence.
Qed.

Lemma steps_grow (s s' : State) :
  wf s -> steps s s' -> wf s' /\ heap s `prefix_of` heap s'.
Proof.
  intros W. induction 1 as [s|text s s' _ IH|key ttl aut s s' s'' _ IH Hop
                            |key s s' s'' _ IH Hop|key s s' s'' _ IH Hop
                            |s s' s'' _ IH Hop].
  - done.
  - destruct (IH W) as [W' Hpre]. split; [by apply wf_emit | done].
  - destruct (IH W) as [W' Hpre].
    destruct (step_grows s' s'' W') as [W'' Hpre']; [right; eauto|].
    split; [done | by etrans].
  - destruct (IH W) as [W' Hpre].
    destruct (step_grows s' s'' W') as [W'' Hpre'];
      [left; by eapply searchById_same|]. split; [done | by etrans].
  - destruct (IH W) as [W' Hpre].
    destruct (step_grows s' s'' W') as [W'' Hpre'];
      [left; by eapply searchByTitle_same|]. split; [done | by etrans].
  - destruct (IH W) as [W' Hpre].
    destruct (step_grows s' s'' W') as [W'' Hpre'];
      [left; by eapply showAllBooks_same|]. split; [done | by etrans].
Qed.

Lemma steps_reachable (s s' : State) : reachable s -> steps s s' -> reachable s'.
Proof.
  intros Hreach. induction 1; eauto using reachable.
Qed.

(** X1. In every state the program reaches no two records of the owned
    collection have the same key. *)
Theorem keys_unique (s : State) :
  reachable s ->
  NoDup (id <$> records s) /\
  forall i j a b, records s !! i = Some a -> records s !! j = Some b ->
    id a = id b -> i = j.
Proof.
  intros Hreach. pose proof (reachable_wf s Hreach) as W.
  rewrite (records_heap s W). split; [apply (wf_keys s W)|].
  intros i j a b Ha Hb Hid.
  eapply (NoDup_lookup (id <$> heap s)); [apply (wf_keys s W) | |].
  - by rewrite list_lookup_fmap, Ha.
  - rewrite list_lookup_fmap, Hb. simpl. by rewrite Hid.
Qed.

Lemma keys_unique_witness :
  NoDup (id <$> records sample) /\
  forall i j a b, records sample !! i = Some a -> records sample !! j = Some b ->
    id a = id b -> i = j.
Proof.
  apply (keys_unique sample).
  apply (reachable_loadSampleData init sample reach_init). reflexivity.
Defined.

(** X2. In every state the program reaches, [addBook] with a key that no
    record has and that has a bucket succeeds: it allocates one [Book] with
    the three values and the availability flag set, appends its address to
    the owner vector, writes the line [Added: <title>], and the new record
    is found by its key at once. *)
Theorem addBook_new_key_added (s : State) (key : Z) (ttl aut : string) :
  reachable s -> ~ has_key s key -> 0 <= HashTable.hashFunction key ->
  exists s', addBook key ttl aut s = Ok s' /\
    heap s' = heap s ++ [mkBook key ttl aut true] /\
    books s' = books s ++ [length (heap s)] /\
    records s' = records s ++ [mkBook key ttl aut true] /\
    cout s' = cout s +:+ "Added: " +:+ ttl +:+ endl /\
    findByKey s' key = Ok (Some (mkBook key ttl aut true)).
Proof.
  intros Hreach Hnew Hpos. pose proof (reachable_wf s Hreach) as W.
  destruct (addBook_new s key ttl aut W Hpos Hnew) as (s' & Hadd & W' & Hh & Hb & Hc).
  exists s'. split; [done|]. split; [done|]. split; [done|].
  split; [by rewrite (records_heap s' W'), (records_heap s W)|].
  split; [done|].
  apply (findByKey_present s' (length (heap s)) (mkBook key ttl aut true) W').
  rewrite Hh. by apply list_lookup_middle.
Qed.

Lemma addBook_new_key_added_witness :
  exists s', addBook 102 "B" "v" one_book = Ok s' /\
    heap s' = heap one_book ++ [mkBook 102 "B" "v" true] /\
    books s' = books one_book ++ [length (heap one_book)] /\
    records s' = records one_book ++ [mkBook 102 "B" "v" true] /\
    cout s' = cout one_book +:+ "Added: " +:+ "B" +:+ endl /\
    findByKey s' 102 = Ok (Some (mkBook 102 "B" "v" true)).
Proof.
  apply (addBook_new_key_added one_book 102 "B" "v").
  - apply (reach_addBook 1 "A" "x" init one_book reach_init). reflexivity.
  - vm_compute. intros H. inversion H as [|? ? ? H']. inversion H'.
  - vm_compute. discriminate.
Defined.

(** X3. In every state the program reaches, the lookup of a key that has a
    bucket and that no record has finds nothing, and [searchById] reports
    it with its not-found line. *)
Theorem searchById_not_found (s : State) (key : Z) :
  reachable s -> 0 <= HashTable.hashFunction key -> ~ has_key s key ->
  HashTable.search (heap s) (idIndex s) key = Ok None /\
  searchById key s =
    Ok (emit ("Book not found (ID: " +:+ show_int key +:+ ")" +:+ endl) s).
Proof.
  intros Hreach Hpos Hnew. pose proof (reachable_wf s Hreach) as W.
  rewrite (has_key_heap s key W) in Hnew.
  destruct (findByKey_absent s key W Hpos Hnew) as [Hs Hf].
  split; [done|]. by rewrite searchById_findByKey, Hf.
Qed.

Lemma searchById_not_found_witness :
  HashTable.search (heap sample) (idIndex sample) 9999 = Ok None /\
  searchById 9999 sample =
    Ok (emit ("Book not found (ID: " +:+ show_int 9999 +:+ ")" +:+ endl) sample).
Proof.
  apply (searchById_not_found sample 9999).
  - apply (reachable_loadSampleData init sample reach_init). reflexivity.
  - vm_compute. discriminate.
  - vm_compute. intros H.
    repeat (inversion H as [|? ? ? H']; clear H; rename H' into H).
Defined.

(** X4. In every state the program reaches, every record of the owned
    collection, shadowed in the tree or not, is found by its key;
    [searchById] prints its catalog line under the found banner, and the
    record is available: no operation ever clears the flag. *)
Theorem owned_record_found_by_key (s : State) (b : Book) :
  reachable s -> b ∈ records s ->
  findByKey s (id b) = Ok (Some b) /\
  searchById (id b) s =
    Ok (emit (endl +:+ "[Found by ID]" +:+ endl +:+ printDetails b) s) /\
  isAvailable b = true.
Proof.
  intros Hreach Hb.
  destruct (exact_lookup_added s b Hreach Hb) as [Hf Hav].
  split; [done|]. split; [|done]. by rewrite searchById_findByKey, Hf.
Qed.

Lemma owned_record_found_by_key_witness :
  findByKey sample (id (mkBook 3099 "Operating System Concepts" "A. Silberschatz" true))
    = Ok (Some (mkBook 3099 "Operating System Concepts" "A. Silberschatz" true)) /\
  searchById (id (mkBook 3099 "Operating System Concepts" "A. Silberschatz" true)) sample =
    Ok (emit (endl +:+ "[Found by ID]" +:+ endl +:+
              printDetails (mkBook 3099 "Operating System Concepts" "A. Silberschatz" true))
             sample) /\
  isAvailable (mkBook 3099 "Operating System Concepts" "A. Silberschatz" true) = true.
Proof.
  apply (owned_record_found_by_key sample
           (mkBook 3099 "Operating System Concepts" "A. Silberschatz" true)).
  - apply (reachable_loadSampleData init sample reach_init). reflexivity.
  - vm_compute. do 3 right. left.
Defined.

(** X5. In every state the program reaches [searchByTitle] runs to
    completion for every title.  When some record has the title it finds
    the earliest inserted of them and prints its catalog line under the
    found banner; when no record has the title it prints its not-found
    line. *)
Theorem searchByTitle_finds_earliest (s : State) (ttl : string) :
  reachable s ->
  (has_title s ttl ->
     exists i b, records s !! i = Some b /\ title b = ttl /\
       (forall j c, records s !! j = Some c -> title c = ttl -> (i <= j)%nat) /\
       findByTitle s ttl = Ok (Some b) /\
       searchByTitle ttl s =
         Ok (emit (endl +:+ "[Found by Title]" +:+ endl +:+ printDetails b) s)) /\
  (~ has_title s ttl ->
     findByTitle s ttl = Ok None /\
     searchByTitle ttl s =
       Ok (emit ("Book not found (Title: " +:+ ttl +:+ ")" +:+ endl) s)).
Proof.
  intros Hreach. pose proof (reachable_wf s Hreach) as W.
  rewrite (has_title_heap s ttl W), (records_heap s W). split.
  - intros Hin.
    destruct (findByTitle_found s ttl W Hin) as (p & b & _ & Hf & Hp & Ht & Hmin).
    exists p, b. split; [done|]. split; [done|]. split; [done|]. split; [done|].
    by rewrite searchByTitle_findByTitle, Hf.
  - intros Hnot. destruct (findByTitle_absent s ttl W Hnot) as [_ Hf].
    split; [done|]. by rewrite searchByTitle_findByTitle, Hf.
Qed.

Lemma searchByTitle_finds_earliest_witness :
  (exists i b, records sample !! i = Some b /\ title b = "Clean Code" /\
     (forall j c, records sample !! j = Some c -> title c = "Clean Code" ->
                  (i <= j)%nat) /\
     findByTitle sample "Clean Code" = Ok (Some b) /\
     searchByTitle "Clean Code" sample =
       Ok (emit (endl +:+ "[Found by Title]" +:+ endl +:+ printDetails b) sample)) /\
  (findByTitle sample "Dune" = Ok None /\
   searchByTitle "Dune" sample =
     Ok (emit ("Book not found (Title: " +:+ "Dune" +:+ ")" +:+ endl) sample)).
Proof.
  assert (reachable sample) as Hreach.
  { apply (reachable_loadSampleData init sample reach_init). reflexivity. }
  destruct (searchByTitle_finds_earliest sample "Clean Code" Hreach) as [Hfound _].
  destruct (searchByTitle_finds_earliest sample "Dune" Hreach) as [_ Habsent].
  split.
  - apply Hfound. vm_compute. right. left.
  - apply Habsent. vm_compute. intros H.
    repeat (inversion H as [|? ? ? H']; clear H; rename H' into H).
Defined.

(** X6. Lookups are stable.  From a state the program reaches, whatever
    operations follow, a key that found a record keeps finding that same
    record, and a title that found a record keeps finding that same record:
    nothing removes, replaces or changes a record, and a later record with
    the same title never takes the place of the first. *)
Theorem lookups_are_stable (s s' : State) :
  reachable s -> steps s s' ->
  (forall key b, findByKey s key = Ok (Some b) -> findByKey s' key = Ok (Some b)) /\
  (forall ttl b, findByTitle s ttl = Ok (Some b) -> findByTitle s' ttl = Ok (Some b)).
Proof.
  intros Hreach Hsteps. pose proof (reachable_wf s Hreach) as W.
  destruct (steps_grow s s' W Hsteps) as [W' Hpre]. split.
  - intros key b Hf.
    destruct (findByKey_Some_inv s key b W Hf) as [Hb <-].
    rewrite (records_heap s W) in Hb. apply list_elem_of_lookup in Hb as [p Hp].
    apply (findByKey_present s' p b W').
    by eapply prefix_lookup_Some.
  - intros ttl b Hf.
    destruct (findByTitle_Some_inv s ttl b W Hf) as [Hb Ht].
    rewrite (records_heap s W) in Hb.
    assert (ttl ∈ title <$> heap s) as Hin.
    { apply list_elem_of_fmap. by exists b. }
    destruct (findByTitle_found s ttl W Hin) as (p & b' & _ & Hf' & Hp & _ & Hmin).
    assert (b' = b) as -> by congruence.
    rewrite <- Ht. apply (findByTitle_first s' p b W').
    + by eapply prefix_lookup_Some.
    + intros j c Hj Hc Heq.
      assert (heap s !! j = Some c) as Hc'.
      { destruct Hpre as [extra Hext]. rewrite Hext in Hc.
        rewrite lookup_app_l in Hc; [done|].
        apply lookup_lt_Some in Hp. lia. }
      specialize (Hmin j c Hc'). rewrite Heq, Ht in Hmin. specialize (Hmin eq_refl). lia.
Qed.

Lemma lookups_are_stable_witness :
  (forall key b, findByKey one_book key = Ok (Some b) ->
     findByKey (after (addBook 2 "A" "y" one_book)) key = Ok (Some b)) /\
  (forall ttl b, findByTitle one_book ttl = Ok (Some b) ->
     findByTitle (after (addBook 2 "A" "y" one_book)) ttl = Ok (Some b)).
Proof.
  apply (lookups_are_stable one_book (after (addBook 2 "A" "y" one_book))).
  - apply (reach_addBook 1 "A" "x" init one_book reach_init). reflexivity.
  - apply (steps_addBook 2 "A" "y" one_book one_book _ (steps_refl one_book)).
    reflexivity.
Defined.

(** X7. The catalog only grows.  From a state the program reaches, whatever
    operations follow, the later store, owner vector and owned collection
    start with the earlier ones: records are appended, never removed,
    reordered or rewritten. *)
Theorem catalog_only_grows (s s' : State) :
  reachable s -> steps s s' ->
  heap s `prefix_of` heap s' /\ books s `prefix_of` books s' /\
  records s `prefix_of` records s' /\
  (length (records s) <= length (records s'))%nat.
Proof.
  intros Hreach Hsteps. pose proof (reachable_wf s Hreach) as W.
  destruct (steps_grow s s' W Hsteps) as [W' Hpre].
  assert (records s `prefix_of` records s') as Hrec.
  { by rewrite (records_heap s W), (records_heap s' W'). }
  split; [done|]. split; [|split; [done | by apply prefix_length]].
  rewrite (wf_books s W), (wf_books s' W').
  destruct Hpre as [extra ->]. rewrite length_app, seq_app. by apply prefix_app_r.
Qed.

Lemma catalog_only_grows_witness :
  heap one_book `prefix_of` heap (after (addBook 2 "A" "y" one_book)) /\
  books one_book `prefix_of` books (after (addBook 2 "A" "y" one_book)) /\
  records one_book `prefix_of` records (after (addBook 2 "A" "y" one_book)) /\
  (length (records one_book)
   <= length (records (after (addBook 2 "A" "y" one_book))))%nat.
Proof.
  apply (catalog_only_grows one_book (after (addBook 2 "A" "y" one_book))).
  - apply (reach_addBook 1 "A" "x" init one_book reach_init). reflexivity.
  - apply (steps_addBook 2 "A" "y" one_book one_book _ (steps_refl one_book)).
    reflexivity.
Defined.

(** ** Further properties: the search tree on its own *)

Lemma insertRecursive_other_titles
    (h : store) (node node' : BSTNode) (book : ptr) (b : Book) (key : string) :
  bst h node -> h !! book = Some b ->
  BST.insertRecursive h node book = Ok node' -> key <> title b ->
  BST.searchRecursive h node' key = BST.searchRecursive h node key.
Proof.
  intros Hbst Hb. revert node'.
  induction Hbst as [|nb n l r Hn Hl Hr Hbl IHl Hbr IHr]; intros node' Hins Hne;
    simpl in Hins.
  - injection Hins as <-. simpl. rewrite (deref_Some _ _ _ Hb). simpl.
    destruct (String.eqb_spec (title b) key) as [Heq|_]; [congruence|].
    by destruct (String.ltb key (title b)).
  - rewrite (deref_Some _ _ _ Hb), (deref_Some _ _ _ Hn) in Hins. simpl in Hins.
    destruct (String.ltb (title b) (title n)) eqn:Hlt.
    { apply bind_Ok in Hins as (l' & Hl' & [= <-]). simpl.
      rewrite (deref_Some _ _ _ Hn). simpl.
      destruct (String.eqb (title n) key); [done|].
      destruct (String.ltb key (title n)); [by apply IHl | done]. }
    destruct (String.ltb (title n) (title b)) eqn:Hgt.
    { apply bind_Ok in Hins as (r' & Hr' & [= <-]). simpl.
      rewrite (deref_Some _ _ _ Hn). simpl.
      destruct (String.eqb (title n) key); [done|].
      destruct (String.ltb key (title n)); [done | by apply IHr]. }
    by injection Hins as <-.
Qed.

(** X8. Inserting into a search tree does not disturb the other titles:
    after [BST::insert] of a record, the search for any title other than
    that record's returns what it returned before. *)
Theorem insert_keeps_other_titles
    (h : store) (root root' : BST.t) (book : ptr) (b : Book) (key : string) :
  bst h root -> h !! book = Some b ->
  BST.insert h root book = Ok root' -> key <> title b ->
  BST.search h root' key = BST.search h root key.
Proof. apply insertRecursive_other_titles. Qed.

Lemma insert_keeps_other_titles_witness :
  BST.search [mkBook 1 "M" "x" true; mkBook 2 "C" "y" true]
             (Node 0 (Node 1 null null) null) "M"
  = BST.search [mkBook 1 "M" "x" true; mkBook 2 "C" "y" true]
               (Node 0 null null) "M".
Proof.
  apply (insert_keeps_other_titles
           [mkBook 1 "M" "x" true; mkBook 2 "C" "y" true]
           (Node 0 null null) (Node 0 (Node 1 null null) null)
           1%nat (mkBook 2 "C" "y" true) "M").
  - apply (bst_node _ 0%nat (mkBook 1 "M" "x" true));
      [reflexivity | constructor | constructor | constructor | constructor].
  - reflexivity.
  - reflexivity.
  - discriminate.
Defined.

(** X9. Insert, then search, on any search tree.  [BST::insert] of a live
    record runs to completion and leaves a search tree.  When the tree had
    no node with the record's title, the new tree has one more node and the
    search for the title returns the record just inserted; when the tree
    had such a node, the insertion is dropped: the tree is the same tree
    and the search still returns the old node. *)
Theorem insert_then_search (h : store) (root : BST.t) (book : ptr) (b : Book) :
  bst h root -> h !! book = Some b ->
  exists root', BST.insert h root book = Ok root' /\ bst h root' /\
    ((BST.search h root (title b) = Ok None /\
      BST.search h root' (title b) = Ok (Some book) /\
      inorder root' ≡ₚ book :: inorder root)
     \/
     (exists q, BST.search h root (title b) = Ok (Some q) /\ root' = root)).
Proof.
  intros Hbst Hb.
  destruct (insertRecursive_spec h root book b Hbst Hb)
    as (root' & Hins & Hbst' & Hcase).
  exists root'. split; [done|]. split; [done|].
  destruct (searchRecursive_spec h root (title b) Hbst) as (res & Hres & Hspec).
  destruct Hcase as [(-> & q & c & Hq & Hc & Ht) | (Hperm & Hnew)].
  - right. destruct res as [q0|]; [by exists q0|].
    exfalso. by apply (Hspec q c).
  - left. destruct res as [q0|].
    { exfalso. destruct Hspec as (Hq0 & c & Hc & Ht). by apply (Hnew q0 c). }
    split; [done|]. split; [|done].
    destruct (searchRecursive_spec h root' (title b) Hbst') as (res' & Hres' & Hspec').
    destruct res' as [q|].
    + destruct Hspec' as (Hq & c & Hc & Ht). rewrite Hperm in Hq.
      apply elem_of_cons in Hq as [-> | Hq]; [done|].
      exfalso. by apply (Hnew q c).
    + exfalso. apply (Hspec' book b); [|done|done]. rewrite Hperm. by left.
Qed.

Lemma insert_then_search_witness :
  exists root',
    BST.insert [mkBook 1 "M" "x" true; mkBook 2 "C" "y" true]
               (Node 0 null null) 1%nat = Ok root' /\
    bst [mkBook 1 "M" "x" true; mkBook 2 "C" "y" true] root' /\
    ((BST.search [mkBook 1 "M" "x" true; mkBook 2 "C" "y" true]
                 (Node 0 null null) (title (mkBook 2 "C" "y" true)) = Ok None /\
      BST.search [mkBook 1 "M" "x" true; mkBook 2 "C" "y" true]
                 root' (title (mkBook 2 "C" "y" true)) = Ok (Some 1%nat) /\
      inorder root' ≡ₚ 1%nat :: inorder (Node 0 null null))
     \/
     (exists q, BST.search [mkBook 1 "M" "x" true; mkBook 2 "C" "y" true]
                  (Node 0 null null) (title (mkBook 2 "C" "y" true)) = Ok (Some q) /\
                root' = Node 0 null null)).
Proof.
  apply (insert_then_search [mkBook 1 "M" "x" true; mkBook 2 "C" "y" true]
           (Node 0 null null) 1%nat (mkBook 2 "C" "y" true)).
  - apply (bst_node _ 0%nat (mkBook 1 "M" "x" true));
      [reflexivity | constructor | constructor | constructor | constructor].
  - reflexivity.
Defined.

Lemma spine_snoc (h : store) (ps : list ptr) (book : ptr) (b : Book) :
  Forall (fun q => exists c, h !! q = Some c /\
            String.ltb (title c) (title b) = true) ps ->
  h !! book = Some b ->
  BST.insertRecursive h (spine ps) book = Ok (spine (ps ++ [book])).
Proof.
  intros Hall Hb. induction Hall as [|p ps (c & Hc & Hlt) _ IH]; simpl; [done|].
  rewrite (deref_Some _ _ _ Hb), (deref_Some _ _ _ Hc). simpl.
  rewrite (ltb_asym _ _ Hlt), Hlt, IH. done.
Qed.

Lemma height_spine (ps : list ptr) : height (spine ps) = length ps.
Proof. induction ps as [|p ps IH]; simpl; [done | by rewrite IH]. Qed.

(** X10. No rebalancing.  Records inserted into the empty tree in strictly
    increasing title order make a tree without a single left child, a linked
    list down the right, whose height is the number of records. *)
Theorem sorted_insertions_degenerate (h : store) (ps : list ptr) :
  StronglySorted (fun a b => String.ltb (title a) (title b) = true) (objects h ps) ->
  Forall (fun p => is_Some (h !! p)) ps ->
  insert_each h BST.empty ps = Ok (spine ps) /\
  height (spine ps) = length ps /\ inorder (spine ps) = ps.
Proof.
  intros Hsorted Hlive. split; [|split; [apply height_spine|]].
  - induction ps as [|p ps IH] using rev_ind; [done|].
    apply Forall_app in Hlive as [Hlive Hp]. apply Forall_singleton in Hp as [b Hb].
    rewrite objects_app, (objects_cons _ _ _ _ Hb) in Hsorted.
    unfold insert_each in *. rewrite foldl_snoc.
    rewrite IH; [|by eapply StronglySorted_app_1_l | done]. simpl.
    apply (spine_snoc h ps p b); [|done].
    apply Forall_forall. intros q Hq.
    rewrite Forall_forall in Hlive. destruct (Hlive q Hq) as [c Hc].
    exists c. split; [done|].
    eapply (StronglySorted_app_1_elem_of _ _ _ c b Hsorted).
    + apply elem_of_objects. eauto.
    + by left.
  - clear. induction ps as [|p ps IH]; simpl; [done | by rewrite IH].
Qed.

Lemma sorted_insertions_degenerate_witness :
  insert_each [mkBook 1 "A" "x" true; mkBook 2 "B" "y" true; mkBook 3 "C" "z" true]
              BST.empty [0%nat; 1%nat; 2%nat]
    = Ok (spine [0%nat; 1%nat; 2%nat]) /\
  height (spine [0%nat; 1%nat; 2%nat]) = length [0%nat; 1%nat; 2%nat] /\
  inorder (spine [0%nat; 1%nat; 2%nat]) = [0%nat; 1%nat; 2%nat].
Proof.
  apply (sorted_insertions_degenerate
           [mkBook 1 "A" "x" true; mkBook 2 "B" "y" true; mkBook 3 "C" "z" true]
           [0%nat; 1%nat; 2%nat]).
  - vm_compute. repeat constructor.
  - repeat constructor; by eexists.
Defined.

(** ** Further properties: the hash table *)

Lemma scan_app (h : store) (chain rest : list ptr) (key : Z) :
  HashTable.scan h (chain ++ rest) key =
    let* found := HashTable.scan h chain key in
    match found with
    | Some p => Ok (Some p)
    | None => HashTable.scan h rest key
    end.
Proof.
  induction chain as [|p chain IH]; simpl; [done|].
  destruct (deref h p) as [b|f]; simpl; [|done].
  by destruct (id b =? key).
Qed.

(** X11. [HashTable::insert] has no uniqueness check and [search] returns
    the first match of the chain.  On a table of 101 chains of live
    addresses, inserting a live record whose key has a bucket appends its
    address to the chain of that bucket and leaves the other chains alone;
    the search for its key then returns the new address when the chain held
    no record with that key, and still returns the earlier address, not the
    new one, when it held one. *)
Theorem table_insert_then_search
    (h : store) (table : HashTable.t) (book : ptr) (b : Book) (chain : list ptr) :
  h !! book = Some b ->
  HashTable.at_index table (HashTable.hashFunction (id b)) = Ok chain ->
  Forall (fun p => is_Some (h !! p)) chain ->
  exists table', HashTable.insert h table book = Ok table' /\
    table' !! Z.to_nat (HashTable.hashFunction (id b)) = Some (chain ++ [book]) /\
    (forall j, j <> Z.to_nat (HashTable.hashFunction (id b)) ->
               table' !! j = table !! j) /\
    (HashTable.search h table (id b) = Ok None ->
     HashTable.search h table' (id b) = Ok (Some book)) /\
    (forall q, HashTable.search h table (id b) = Ok (Some q) ->
               HashTable.search h table' (id b) = Ok (Some q)).
Proof.
  intros Hb Hchain Hlive.
  pose proof Hchain as Hchain'. apply at_index_Ok in Hchain' as [Hrange Hlook].
  set (i := Z.to_nat (HashTable.hashFunction (id b))) in *.
  assert (i < length table)%nat as Hi by by eapply lookup_lt_Some.
  exists (<[i := chain ++ [book]]> table).
  assert (HashTable.at_index (<[i := chain ++ [book]]> table)
            (HashTable.hashFunction (id b)) = Ok (chain ++ [book])) as Hnew.
  { apply at_index_Ok. split; [done|]. by apply list_lookup_insert_eq. }
  split.
  { unfold HashTable.insert. rewrite (deref_Some _ _ _ Hb). simpl.
    by rewrite Hchain. }
  split; [by apply list_lookup_insert_eq|].
  split; [intros j Hj; by apply list_lookup_insert_ne|].
  unfold HashTable.search. rewrite Hchain, Hnew. simpl. rewrite scan_app.
  split.
  - intros ->. simpl. rewrite (deref_Some _ _ _ Hb). simpl.
    by rewrite Z.eqb_refl.
  - intros q ->. done.
Qed.

Lemma table_insert_then_search_witness :
  exists table',
    HashTable.insert [mkBook 1 "A" "x" true; mkBook 1 "B" "y" true]
                     (idIndex one_book) 1%nat = Ok table' /\
    table' !! Z.to_nat (HashTable.hashFunction (id (mkBook 1 "B" "y" true)))
      = Some ([0%nat] ++ [1%nat]) /\
    (forall j, j <> Z.to_nat (HashTable.hashFunction (id (mkBook 1 "B" "y" true))) ->
               table' !! j = idIndex one_book !! j) /\
    (HashTable.search [mkBook 1 "A" "x" true; mkBook 1 "B" "y" true]
                      (idIndex one_book) (id (mkBook 1 "B" "y" true)) = Ok None ->
     HashTable.search [mkBook 1 "A" "x" true; mkBook 1 "B" "y" true]
                      table' (id (mkBook 1 "B" "y" true)) = Ok (Some 1%nat)) /\
    (forall q,
       HashTable.search [mkBook 1 "A" "x" true; mkBook 1 "B" "y" true]
                        (idIndex one_book) (id (mkBook 1 "B" "y" true)) = Ok (Some q) ->
       HashTable.search [mkBook 1 "A" "x" true; mkBook 1 "B" "y" true]
                        table' (id (mkBook 1 "B" "y" true)) = Ok (Some q)).
Proof.
  apply (table_insert_then_search
           [mkBook 1 "A" "x" true; mkBook 1 "B" "y" true]
           (idIndex one_book) 1%nat (mkBook 1 "B" "y" true) [0%nat]).
  - reflexivity.
  - reflexivity.
  - repeat constructor. by eexists.
Defined.

Lemma addBook_fresh_table (s s' : State) (key : Z) (ttl aut : string) :
  HashTable.search (heap s) (idIndex s) key = Ok None ->
  addBook key ttl aut s = Ok s' ->
  exists chain,
    idIndex s !! Z.to_nat (HashTable.hashFunction key) = Some chain /\
    idIndex s' = <[Z.to_nat (HashTable.hashFunction key) := chain ++ [length (heap s)]]>
                   (idIndex s).
Proof.
  intros Hsearch Hadd. unfold addBook in Hadd. rewrite Hsearch in Hadd.
  simpl in Hadd.
  apply bind_Ok in Hadd as (table' & Hins & Hadd).
  apply bind_Ok in Hadd as (tree' & _ & [= <-]). simpl.
  unfold HashTable.insert in Hins.
  rewrite (deref_Some _ (length (heap s)) (Book_new key ttl aut)) in Hins
    by by apply list_lookup_middle.
  simpl in Hins. apply bind_Ok in Hins as (chain & Hchain & [= <-]).
  apply at_index_Ok in Hchain as [_ Hchain]. by exists chain.
Qed.

Lemma sorted_filter {A : Type} (R : A -> A -> Prop) (P : A -> Prop)
    `{forall x, Decision (P x)} (l : list A) :
  StronglySorted R l -> StronglySorted R (filter P l).
Proof.
  induction 1 as [|a l _ IH Hall]; [constructor|].
  rewrite filter_cons. case_decide; [|done].
  constructor; [done|]. apply Forall_forall. intros x Hx%list_elem_of_filter.
  rewrite Forall_forall in Hall. apply Hall. tauto.
Qed.

Lemma sorted_seq (j n : nat) : StronglySorted lt (seq j n).
Proof.
  revert j. induction n as [|n IH]; intros j; simpl; constructor; [done|].
  apply Forall_forall. intros x Hx%elem_of_seq. lia.
Qed.

(** Every chain holds its addresses in ascending order, which is the order
    of allocation and so of insertion. *)
Lemma chains_ascending (s : State) :
  reachable s ->
  forall (i : nat) chain, idIndex s !! i = Some chain -> StronglySorted lt chain.
Proof.
  induction 1 as [|text s _ IH|key ttl aut s s' Hreach IH Hop|key s s' _ IH Hop
                  |key s s' _ IH Hop|s s' _ IH Hop].
  - intros i chain Hi.
    change (replicate (Z.to_nat HashTable.TABLE_SIZE) [] !! i = Some chain) in Hi.
    apply lookup_replicate in Hi as [-> _]. constructor.
  - done.
  - pose proof (reachable_wf s Hreach) as W.
    destruct (HashTable.search (heap s) (idIndex s) key) as [[p|]|f] eqn:Hs.
    + rewrite (addBook_duplicate _ _ _ _ _ Hs) in Hop. by injection Hop as <-.
    + destruct (addBook_fresh_table s s' key ttl aut Hs Hop) as (chain & Hchain & ->).
      intros i chain' Hi.
      apply list_lookup_insert_Some in Hi as [(<- & <- & _) | (_ & Hi)];
        [|by eapply IH].
      apply StronglySorted_app_2; [|by eapply IH | repeat constructor].
      intros p q Hp ->%list_elem_of_singleton.
      pose proof (wf_chain_live s _ chain W Hchain) as Hlive.
      rewrite Forall_forall in Hlive. by apply lookup_lt_is_Some, Hlive.
    + unfold addBook in Hop. by rewrite Hs in Hop.
  - apply searchById_same in Hop as (_ & _ & -> & _). done.
  - apply searchByTitle_same in Hop as (_ & _ & -> & _). done.
  - apply showAllBooks_same in Hop as (_ & _ & -> & _). done.
Qed.

(** X12. In every state the program reaches, the chain of bucket [i] is
    the owner vector filtered by bucket number: it holds exactly the
    addresses of the records whose key hashes to [i], in insertion order.
    So when every key hashes to the same bucket, that one chain is the
    whole owner vector and [search] is a linear scan of all records. *)
Theorem chain_is_filtered_books (s : State) (i : nat) :
  reachable s -> (i < 101)%nat ->
  idIndex s !! i =
    Some (filter (fun p => bucket_of (heap s) p = Some (Z.of_nat i)) (books s)) /\
  ((forall b, b ∈ records s -> HashTable.hashFunction (id b) = Z.of_nat i) ->
   idIndex s !! i = Some (books s)).
Proof.
  intros Hreach Hi. pose proof (reachable_wf s Hreach) as W.
  destruct (lookup_lt_is_Some_2 (idIndex s) i) as [chain Hchain].
  { rewrite (wf_table s W). unfold HashTable.TABLE_SIZE. lia. }
  assert (chain = filter (fun p => bucket_of (heap s) p = Some (Z.of_nat i)) (books s))
    as Heq.
  { apply (StronglySorted_unique_strong lt).
    - intros; lia.
    - by eapply chains_ascending.
    - rewrite (wf_books s W). apply sorted_filter, sorted_seq.
    - apply NoDup_Permutation.
      + by eapply (wf_chain_nodup s W).
      + apply NoDup_filter. rewrite (wf_books s W). apply NoDup_seq.
      + intros p. rewrite list_elem_of_filter, (wf_books s W), elem_of_seq.
        unfold bucket_of. split.
        * intros Hp.
          destruct (wf_chain_sound s W i chain p Hchain Hp) as (b & Hb & Hh).
          rewrite Hb. simpl. split; [by rewrite Hh|].
          apply lookup_lt_Some in Hb. lia.
        * intros [Hp _]. destruct (heap s !! p) as [b|] eqn:Hb; [|done].
          simpl in Hp. injection Hp as Hp.
          destruct (wf_chain_complete s W p b Hb) as (_ & chain' & Hc' & Hin).
          rewrite Hp, Nat2Z.id in Hc'. congruence. }
  split; [congruence|].
  intros Hall. rewrite Hchain, Heq. f_equal.
  clear Heq. rewrite (records_heap s W) in Hall.
  assert (Forall (fun p => bucket_of (heap s) p = Some (Z.of_nat i)) (books s))
    as Hforall.
  { rewrite (wf_books s W). apply Forall_forall. intros p Hp%elem_of_seq.
    destruct (lookup_lt_is_Some_2 (heap s) p) as [b Hb]; [lia|].
    unfold bucket_of. rewrite Hb. simpl. f_equal. apply Hall.
    by eapply list_elem_of_lookup_2. }
  induction Hforall as [|p ps Hp _ IH]; [done|].
  rewrite filter_cons_True by done. by rewrite IH.
Qed.

Lemma chain_is_filtered_books_witness :
  idIndex (after (addBook 102 "B" "v" one_book)) !! 1%nat =
    Some (filter (fun p => bucket_of (heap (after (addBook 102 "B" "v" one_book))) p
                           = Some (Z.of_nat 1))
                 (books (after (addBook 102 "B" "v" one_book)))) /\
  ((forall b, b ∈ records (after (addBook 102 "B" "v" one_book)) ->
              HashTable.hashFunction (id b) = Z.of_nat 1) ->
   idIndex (after (addBook 102 "B" "v" one_book)) !! 1%nat
     = Some (books (after (addBook 102 "B" "v" one_book)))).
Proof.
  apply (chain_is_filtered_books (after (addBook 102 "B" "v" one_book)) 1%nat).
  - apply (reach_addBook 102 "B" "v" one_book); [|reflexivity].
    apply (reach_addBook 1 "A" "x" init one_book reach_init). reflexivity.
  - lia.
Defined.

(** ** Further properties: sample data, teardown and the catalog line *)

Lemma same_catalog_trans (s1 s2 s3 : State) :
  same_catalog s1 s2 -> same_catalog s2 s3 -> same_catalog s1 s3.
Proof.
  intros (H1 & H2 & H3 & H4) (H1' & H2' & H3' & H4').
  repeat split; congruence.
Qed.

Lemma key_stays (h h' : store) (key : Z) :
  h `prefix_of` h' -> key ∈ id <$> h -> key ∈ id <$> h'.
Proof.
  intros [extra ->]. rewrite fmap_app, elem_of_app. by left.
Qed.

(** [loadSampleData] on a consistent manager: the five keys have buckets,
    so the five [addBook] calls run to completion. *)
Lemma loadSampleData_total (s : State) :
  wf s ->
  exists s', loadSampleData s = Ok s' /\ wf s' /\ heap s `prefix_of` heap s' /\
    Forall (fun key => key ∈ id <$> heap s') [1001; 2042; 1005; 3099; 5001] /\
    (Forall (fun key => key ∈ id <$> heap s) [1001; 2042; 1005; 3099; 5001] ->
     same_catalog s s').
Proof.
  intros W. unfold loadSampleData.
  destruct (addBook_total s 1001 "The C++ Programming Language" "B. Stroustrup" W)
    as (s1 & -> & W1 & P1 & K1 & S1); [done|]. simpl.
  destruct (addBook_total s1 2042 "Clean Code" "Robert C. Martin" W1)
    as (s2 & -> & W2 & P2 & K2 & S2); [done|]. simpl.
  destruct (addBook_total s2 1005 "Introduction to Algorithms" "T. Cormen" W2)
    as (s3 & -> & W3 & P3 & K3 & S3); [done|]. simpl.
  destruct (addBook_total s3 3099 "Operating System Concepts" "A. Silberschatz" W3)
    as (s4 & -> & W4 & P4 & K4 & S4); [done|]. simpl.
  destruct (addBook_total s4 5001 "Computer Networking" "J. Kurose" W4)
    as (s5 & -> & W5 & P5 & K5 & S5); [done|]. simpl.
  eexists. split; [done|]. split; [by apply wf_emit|]. simpl.
  split.
  { etrans; [exact P1|]. etrans; [exact P2|]. etrans; [exact P3|].
    etrans; [exact P4 | exact P5]. }
  split.
  - repeat constructor; eauto 10 using key_stays.
  - intros Hall.
    apply Forall_cons in Hall as [H1 Hall]. apply Forall_cons in Hall as [H2 Hall].
    apply Forall_cons in Hall as [H3 Hall]. apply Forall_cons in Hall as [H4 Hall].
    apply Forall_cons in Hall as [H5 _].
    specialize (S1 H1).
    specialize (S2 (key_stays _ _ _ P1 H2)).
    specialize (S3 (key_stays _ _ _ P2 (key_stays _ _ _ P1 H3))).
    specialize (S4 (key_stays _ _ _ P3 (key_stays _ _ _ P2 (key_stays _ _ _ P1 H4)))).
    specialize (S5 (key_stays _ _ _ P4 (key_stays _ _ _ P3
                      (key_stays _ _ _ P2 (key_stays _ _ _ P1 H5))))).
    eapply same_catalog_trans; [exact S1|].
    eapply same_catalog_trans; [exact S2|].
    eapply same_catalog_trans; [exact S3|].
    eapply same_catalog_trans; [exact S4|].
    eapply same_catalog_trans; [exact S5|]. apply same_catalog_emit.
Qed.

(** X13. [loadSampleData] can be called in any state the program reaches:
    it runs to completion, keeps the records that were there, and leaves the
    five sample keys in the catalog.  Called again, it adds nothing: the
    five calls are rejected as duplicates and the store, owner vector, hash
    table and tree stay as they are. *)
Theorem loadSampleData_twice (s : State) :
  reachable s ->
  exists s1 s2,
    loadSampleData s = Ok s1 /\ loadSampleData s1 = Ok s2 /\
    reachable s1 /\ reachable s2 /\
    records s `prefix_of` records s1 /\
    Forall (has_key s1) [1001; 2042; 1005; 3099; 5001] /\
    same_catalog s1 s2.
Proof.
  intros Hreach. pose proof (reachable_wf s Hreach) as W.
  destruct (loadSampleData_total s W) as (s1 & Hload1 & W1 & Hpre & Hkeys & _).
  destruct (loadSampleData_total s1 W1) as (s2 & Hload2 & W2 & _ & _ & Hsame).
  exists s1, s2. split; [done|]. split; [done|].
  assert (reachable s1) as Hreach1 by by eapply reachable_loadSampleData.
  split; [done|]. split; [by eapply reachable_loadSampleData|].
  split; [by rewrite (records_heap s W), (records_heap s1 W1)|].
  split; [|by apply Hsame].
  eapply Forall_impl; [exact Hkeys|]. intros key Hkey.
  by apply (has_key_heap s1 key W1).
Qed.

Lemma loadSampleData_twice_witness :
  exists s1 s2,
    loadSampleData one_book = Ok s1 /\ loadSampleData s1 = Ok s2 /\
    reachable s1 /\ reachable s2 /\
    records one_book `prefix_of` records s1 /\
    Forall (has_key s1) [1001; 2042; 1005; 3099; 5001] /\
    same_catalog s1 s2.
Proof.
  apply (loadSampleData_twice one_book).
  apply (reach_addBook 1 "A" "x" init one_book reach_init). reflexivity.
Defined.

Lemma delete_books_spec (live bs : list ptr) :
  NoDup bs -> (forall p, p ∈ bs -> p ∈ live) ->
  delete_books live bs = Ok (filter (fun q => q ∉ bs) live).
Proof.
  intros Hnd. revert live.
  induction Hnd as [|book bs Hnot Hnd IH]; intros live Hsub; simpl.
  - f_equal. symmetry. clear Hsub. induction live as [|q live IHl]; [done|].
    rewrite filter_cons_True by apply not_elem_of_nil. by rewrite IHl.
  - unfold delete. rewrite bool_decide_eq_true_2 by (apply Hsub; by left). simpl.
    rewrite IH.
    + f_equal. rewrite list_filter_filter. apply list_filter_iff.
      intros q. rewrite not_elem_of_cons. tauto.
    + intros p Hp. apply list_elem_of_filter. split.
      * intros ->. done.
      * apply Hsub. by right.
Qed.

Lemma filter_none {A : Type} (P : A -> Prop) `{forall x, Decision (P x)}
    (l : list A) :
  (forall x, x ∈ l -> ~ P x) -> filter P l = [].
Proof.
  induction l as [|x l IH]; intros Hno; [done|].
  rewrite filter_cons_False by (apply Hno; by left).
  apply IH. intros y Hy. apply Hno. by right.
Qed.

(** X14. Teardown releases every record exactly once.  In every state the
    program reaches, the owner vector holds each allocated [Book] once, so
    the destructor of the manager runs its loop without releasing any
    address twice, and when it is done no [Book] that was ever allocated is
    left live: no double release and no leak, whatever calls were accepted
    or rejected before. *)
Theorem teardown_releases_every_book (s : State) :
  reachable s ->
  destroy s = Ok [] /\ NoDup (books s) /\ length (books s) = length (heap s).
Proof.
  intros Hreach. pose proof (reachable_wf s Hreach) as W.
  unfold destroy. rewrite (wf_books s W). split; [|split].
  - rewrite delete_books_spec; [|apply NoDup_seq | done].
    f_equal. apply filter_none. tauto.
  - apply NoDup_seq.
  - apply length_seq.
Qed.

Lemma teardown_releases_every_book_witness :
  destroy sample = Ok [] /\ NoDup (books sample) /\
  length (books sample) = length (heap sample).
Proof.
  apply (teardown_releases_every_book sample).
  apply (reachable_loadSampleData init sample reach_init). reflexivity.
Defined.

Lemma length_append (a b : string) :
  String.length (a +:+ b) = (String.length a + String.length b)%nat.
Proof.
  induction a as [|x a IH]; [done|].
  change (S (String.length (a +:+ b)) = S (String.length a + String.length b)).
  by rewrite IH.
Qed.

Lemma length_spaces (n : nat) : String.length (spaces n) = n.
Proof. induction n as [|n IH]; simpl; [done | by rewrite IH]. Qed.

Lemma length_left_setw (w : nat) (s : string) :
  String.length (left_setw w s) = Nat.max w (String.length s).
Proof. unfold left_setw. rewrite length_append, length_spaces. lia. Qed.

(** X15. The catalog line is padded, never cut.  [printDetails] writes the
    title in a field of 25 characters and the author in a field of 15; the
    line is as long as the key's digits, the two fields and the 19 (status
    [Available]) or 21 (status [Checked Out]) other characters, and a title
    or an author longer than its field makes the line longer by the excess
    instead of being cut. *)
Theorem printDetails_layout (b : Book) :
  String.length (printDetails b) =
    (String.length (show_int (id b))
     + Nat.max 25 (String.length (title b))
     + Nat.max 15 (String.length (author b))
     + (if isAvailable b then 19 else 21))%nat.
Proof.
  unfold printDetails. rewrite !length_append, !length_left_setw.
  destruct (isAvailable b); simpl; lia.
Qed.
